(** * BAR ("BAsic ARchive"): a shallow embedding of the container codec

    The development follows the Go package [bar]:
    - [common.go]: constants and the [Entry] record;
    - the reader ([NewReader], [Reader.EntryReader], [entryReader],
      [adlerReader], [rBuf]);
    - the writer ([NewWriter], [Writer.Create], [SetPerms], [Write], [Close],
      [writeTable], [finalizeEntry], [dataWriter], [wBuf]).

    Go's standard library is outside the package.  [encoding/binary] is
    rendered with coqutil's little-endian lists, [hash/adler32] is written
    out, and [compress/flate], [io.Writer] and [path/filepath.IsLocal] are
    interfaces (type classes) of which concrete instances are given at the
    end of the definitions. *)

From Stdlib Require Import String Ascii.
From Stdlib Require Import ZArith Lia List Bool Sorted.
Local Abbreviation length := Datatypes.length.
From coqutil Require Import Byte Word.LittleEndianList.
Import ListNotations.
Local Open Scope Z_scope.

(** ** Machine integers *)

Definition uint16 (z : Z) : Z := z mod 2 ^ 16.
Definition uint32 (z : Z) : Z := z mod 2 ^ 32.
Definition uint64 (z : Z) : Z := z mod 2 ^ 64.

(** Conversion to a signed 64-bit integer, two's complement. *)
Definition int64 (z : Z) : Z := (z + 2 ^ 63) mod 2 ^ 64 - 2 ^ 63.

Definition is_uint (w : Z) (z : Z) : Prop := 0 <= z < 2 ^ w.

Definition len {A} (l : list A) : Z := Z.of_nat (length l).

(** ** Errors

    Go's [error] values; [nil] is [None] of [option error].  [ErrExternal]
    stands for any error value raised by the underlying sink, source or
    decompressor. *)

Inductive error : Type :=
| EOF
| ErrUnexpectedEOF
| ErrUnknownFormat
| ErrUnsupportedVersion
| ErrInvalidChecksum
| ErrNoValidEntry
| ErrPathIsNotSimple
| ErrWriteAfterClose
| ErrExternal (code : nat).

Definition error_eqb (a b : error) : bool :=
  match a, b with
  | EOF, EOF
  | ErrUnexpectedEOF, ErrUnexpectedEOF
  | ErrUnknownFormat, ErrUnknownFormat
  | ErrUnsupportedVersion, ErrUnsupportedVersion
  | ErrInvalidChecksum, ErrInvalidChecksum
  | ErrNoValidEntry, ErrNoValidEntry
  | ErrPathIsNotSimple, ErrPathIsNotSimple
  | ErrWriteAfterClose, ErrWriteAfterClose => true
  | ErrExternal m, ErrExternal n => Nat.eqb m n
  | _, _ => false
  end.

(** A call either returns a value or an error. *)
Inductive result (A : Type) : Type :=
| Ok (a : A)
| Err (e : error).
Arguments Ok {A} a.
Arguments Err {A} e.

(** Partial computations: [None] is a run-time panic (slice bounds out of
    range, nil dereference). *)
Notation "x <- m ;; k" :=
  (match m with Some x => k | None => None end)
  (at level 61, m at next level, right associativity).
Notation "' p <- m ;; k" :=
  (match m with Some p => k | None => None end)
  (at level 61, p pattern, m at next level, right associativity).

(** ** common.go *)

Definition Version : Z := 1.
Definition headerSize : nat := 4.
Definition entrySize : nat := 32.
Definition footerSize : nat := 16.
Definition magicNumber : list byte := [Byte.x42; Byte.x41; Byte.x52].

Record Entry : Type := mkEntry {
  Name : string;
  Size : Z;
  Perm : Z;
  sizeCompressed : Z;
  index : Z;
  adler : Z
}.

(** The Go field types of [Entry]. *)
Record Entry_typed (e : Entry) : Prop := {
  Size_u64 : is_uint 64 (Size e);
  Perm_u16 : is_uint 16 (Perm e);
  sizeCompressed_u64 : is_uint 64 (sizeCompressed e);
  index_u64 : is_uint 64 (index e);
  adler_u32 : is_uint 32 (adler e)
}.

(** Conversions between a Go string and its bytes. *)
Definition bytes_of_string (s : string) : list byte := list_byte_of_string s.
Definition string_of_bytes (b : list byte) : string := string_of_list_byte b.

(** A fresh [make([]byte, n)]. *)
Definition make (n : nat) : list byte := repeat Byte.x00 n.

(** ** Byte-order codec: [wBuf] and [rBuf]

    A [wBuf] is a slice over a backing array; every put writes at the front
    of the slice and re-slices past the written bytes.  [wb_done] holds the
    bytes of the backing array already behind the cursor. *)

Record wBuf : Type := mkWBuf { wb_done : list byte; wb_rest : list byte }.

Definition wBuf_of (buf : list byte) : wBuf := mkWBuf [] buf.
Definition wBuf_backing (wb : wBuf) : list byte := wb_done wb ++ wb_rest wb.

(** [PutUintN] of [binary.LittleEndian] at the front of the slice, which is
    then re-sliced past the [n] bytes written.  A slice shorter than [n]
    panics. *)
Definition wBuf_put (n : nat) (u : Z) (wb : wBuf) : option wBuf :=
  if (length (wb_rest wb) <? n)%nat then None
  else Some (mkWBuf (wb_done wb ++ le_split n u) (skipn n (wb_rest wb))).

Definition wBuf_Uint8 := wBuf_put 1.
Definition wBuf_Uint16 := wBuf_put 2.
Definition wBuf_Uint32 := wBuf_put 4.
Definition wBuf_Uint64 := wBuf_put 8.

Definition rBuf : Type := list byte.

(** [UintN] of [binary.LittleEndian] from the front of the slice, which is
    then re-sliced past the [n] bytes read. *)
Definition rBuf_get (n : nat) (rb : rBuf) : option (Z * rBuf) :=
  if (length rb <? n)%nat then None
  else Some (le_combine (firstn n rb), skipn n rb).

Definition rBuf_Uint8 := rBuf_get 1.
Definition rBuf_Uint16 := rBuf_get 2.
Definition rBuf_Uint32 := rBuf_get 4.
Definition rBuf_Uint64 := rBuf_get 8.

(** ** Entry record codec *)

(** The body of the loop of [Writer.writeTable]: the 32-byte buffer that is
    written for [x]; the name follows as a second write. *)
Definition encodeEntry (x : Entry) : option (list byte) :=
  let wb := wBuf_of (make entrySize) in
  wb <- wBuf_Uint64 (sizeCompressed x) wb ;;
  wb <- wBuf_Uint64 (Size x) wb ;;
  wb <- wBuf_Uint64 (index x) wb ;;
  wb <- wBuf_Uint32 (adler x) wb ;;
  wb <- wBuf_Uint16 (Perm x) wb ;;
  wb <- wBuf_Uint16 (uint16 (Z.of_nat (String.length (Name x)))) wb ;;
  Some (wBuf_backing wb).

(** The body of the loop of [NewReader]: the fields decoded from the 32-byte
    buffer, with the name still empty, and the name length. *)
Definition decodeEntry (buf : list byte) : option (Entry * Z) :=
  '(csize, r) <- rBuf_Uint64 buf ;;
  '(size, r) <- rBuf_Uint64 r ;;
  '(idx, r) <- rBuf_Uint64 r ;;
  '(adl, r) <- rBuf_Uint32 r ;;
  '(perm, r) <- rBuf_Uint16 r ;;
  '(nlen, r) <- rBuf_Uint16 r ;;
  Some (mkEntry EmptyString size perm csize idx adl, nlen).

Definition setName (e : Entry) (n : string) : Entry :=
  mkEntry n (Size e) (Perm e) (sizeCompressed e) (index e) (adler e).

(** The bytes of one table record as [writeTable] hands them to the table
    stream. *)
Definition recordBytes (x : Entry) : option (list byte) :=
  buf <- encodeEntry x ;;
  Some (buf ++ bytes_of_string (Name x)).

(** One table record read back from a byte sequence holding the whole
    record: 32 bytes, then [name_length] bytes. *)
Definition parseRecord (bs : list byte) : option (Entry * list byte) :=
  if (length bs <? entrySize)%nat then None else
  '(e, nlen) <- decodeEntry (firstn entrySize bs) ;;
  let rest := skipn entrySize bs in
  if (length rest <? Z.to_nat nlen)%nat then None else
  Some (setName e (string_of_bytes (firstn (Z.to_nat nlen) rest)),
        skipn (Z.to_nat nlen) rest).

(** ** hash/adler32

    The digest is one 32-bit word, [s2 << 16 | s1], both sums taken modulo
    65521.  Go reduces once per block of at most 5552 bytes, which gives the
    same sums as reducing after every byte. *)

Definition adler32_mod : Z := 65521.

Definition adler32_step (d : Z) (b : byte) : Z :=
  let s1 := (Z.land d 65535 + byte.unsigned b) mod adler32_mod in
  let s2 := (Z.shiftr d 16 + s1) mod adler32_mod in
  Z.lor (Z.shiftl s2 16) s1.

Definition adler32_update (d : Z) (p : list byte) : Z :=
  fold_left adler32_step p d.

(** [adler32.New()] starts from 1. *)
Definition adler32_New : Z := 1.

Definition adler32 (p : list byte) : Z := adler32_update adler32_New p.

(** ** Interfaces of the standard library *)

(** [io.Writer].  A call that returns no error has written all of [p], as
    the contract of [io.Writer] requires. *)
Class IoWriter (W : Type) : Type :=
  io_Write : W -> list byte -> W * option error.

(** [compress/flate]'s writer at [flate.BestCompression].  [flate_Write]
    and [flate_Close] return the compressed bytes that the call hands to
    the writer underneath. *)
Class Deflater : Type := {
  compressor : Type;
  flate_NewWriter : compressor;
  flate_Write : compressor -> list byte -> compressor * list byte;
  flate_Close : compressor -> list byte
}.

(** [filepath.IsLocal]. *)
Class PathLib : Type :=
  filepath_IsLocal : string -> bool.

(** [strings.IndexRune(name, '\\') != -1]. *)
Definition hasBackslash (name : string) : bool :=
  existsb (Ascii.eqb "\"%char) (list_ascii_of_string name).

(** ** The writer *)

Section WriterModel.

Context {W : Type} {sink : IoWriter W} {flate : Deflater} {path : PathLib}.

(** [dataWriter]: the two counters, the digest of the [adlerWriter] and the
    compressor.  The sink that the [adlerWriter] points to is the Writer's
    own [w]; it is passed to every call and returned. *)
Record dataWriter : Type := mkDataWriter {
  uncompCounter : Z;
  compCounter : Z;
  dw_adler : Z;
  deflate : compressor
}.

(** [flate.NewWriter] fails only for an invalid level, so [newDataWriter]
    at [flate.BestCompression] returns no error. *)
Definition newDataWriter : dataWriter :=
  mkDataWriter 0 0 adler32_New flate_NewWriter.

(** [adlerWriter.Write]: an [io.MultiWriter] over the hash and the sink, the
    hash first. *)
Definition adlerWriter_Write (d : Z) (w : W) (p : list byte)
  : Z * W * option error :=
  let d' := adler32_update d p in
  let (w', e) := io_Write w p in
  (d', w', e).

(** [countWriter.Write] of [compCounter], around the [adlerWriter]. *)
Definition compCounter_Write (dw : dataWriter) (w : W) (p : list byte)
  : dataWriter * W * option error :=
  let '(d', w', e) := adlerWriter_Write (dw_adler dw) w p in
  match e with
  | Some err =>
      (mkDataWriter (uncompCounter dw) (compCounter dw) d' (deflate dw),
       w', Some err)
  | None =>
      (mkDataWriter (uncompCounter dw) (uint64 (compCounter dw + len p)) d'
         (deflate dw),
       w', None)
  end.

(** The compressor passes the bytes it has ready to [compCounter]. *)
Definition emit (dw : dataWriter) (w : W) (out : list byte)
  : dataWriter * W * option error :=
  match out with
  | [] => (dw, w, None)
  | _ => compCounter_Write dw w out
  end.

(** [dataWriter.Write]: [countWriter.Write] of [uncompCounter], around the
    compressor. *)
Definition dataWriter_Write (dw : dataWriter) (w : W) (p : list byte)
  : dataWriter * W * option error :=
  let (c, out) := flate_Write (deflate dw) p in
  let '(dw1, w', e) :=
    emit (mkDataWriter (uncompCounter dw) (compCounter dw) (dw_adler dw) c)
      w out in
  match e with
  | Some err => (dw1, w', Some err)
  | None =>
      (mkDataWriter (uint64 (uncompCounter dw1 + len p)) (compCounter dw1)
         (dw_adler dw1) (deflate dw1),
       w', None)
  end.

Definition dataWriter_Close (dw : dataWriter) (w : W)
  : dataWriter * W * option error :=
  emit dw w (flate_Close (deflate dw)).

Definition CompressedCount (dw : dataWriter) : Z := compCounter dw.
Definition UncompressedCount (dw : dataWriter) : Z := uncompCounter dw.
Definition dataWriter_Adler (dw : dataWriter) : Z := dw_adler dw.

Record Writer : Type := mkWriter {
  bw_w : W;
  bw_index : Z;
  bw_entries : list Entry;
  bw_curr : option dataWriter;
  bw_err : option error
}.

Definition set_err (bw : Writer) (e : option error) : Writer :=
  mkWriter (bw_w bw) (bw_index bw) (bw_entries bw) (bw_curr bw) e.

Definition set_w (bw : Writer) (w : W) : Writer :=
  mkWriter w (bw_index bw) (bw_entries bw) (bw_curr bw) (bw_err bw).

(** [l[len(l)-1] = f(l[len(l)-1])]; an empty slice panics. *)
Fixpoint set_last {A : Type} (f : A -> A) (l : list A) : option (list A) :=
  match l with
  | [] => None
  | [x] => Some [f x]
  | x :: l' => l'' <- set_last f l' ;; Some (x :: l'')
  end.

(** The header: the magic number in bytes 0 to 2, the version in byte 3. *)
Definition headerBytes : list byte := magicNumber ++ [byte.of_Z Version].

Definition NewWriter (w : W) : result Writer :=
  let (w', e) := io_Write w headerBytes in
  match e with
  | Some err => Err err
  | None => Ok (mkWriter w' (uint64 (len headerBytes)) [] None
                  (Some ErrNoValidEntry))
  end.

Definition finalizeEntry (bw : Writer) : option (Writer * option error) :=
  dw <- bw_curr bw ;;
  let '(dw', w', e) := dataWriter_Close dw (bw_w bw) in
  match e with
  | Some err =>
      Some (mkWriter w' (bw_index bw) (bw_entries bw) (Some dw') (bw_err bw),
            Some err)
  | None =>
      es <- set_last
              (fun x => mkEntry (Name x) (UncompressedCount dw') (Perm x)
                          (CompressedCount dw') (index x)
                          (dataWriter_Adler dw'))
              (bw_entries bw) ;;
      Some (mkWriter w' (uint64 (bw_index bw + CompressedCount dw')) es None
              (bw_err bw),
            None)
  end.

(** Is the latch set to something other than [ErrNoValidEntry]? *)
Definition latched (bw : Writer) : option error :=
  match bw_err bw with
  | Some ErrNoValidEntry => None
  | e => e
  end.

Definition Create (name : string) (bw : Writer)
  : option (Writer * option error) :=
  match latched bw with
  | Some err => Some (bw, Some err)
  | None =>
      '(bw1, e) <- match bw_err bw with
                   | Some _ => Some (bw, None)
                   | None => finalizeEntry bw
                   end ;;
      match e with
      | Some err => Some (set_err bw1 (Some err), Some err)
      | None =>
          if negb (filepath_IsLocal name) || hasBackslash name then
            Some (set_err bw1 (Some ErrPathIsNotSimple),
                  Some ErrPathIsNotSimple)
          else
            let e := mkEntry name 0 420 0 (bw_index bw1) 0 in
            Some (mkWriter (bw_w bw1) (bw_index bw1) (bw_entries bw1 ++ [e])
                    (Some newDataWriter) None,
                  None)
      end
  end.

Definition SetPerms (perm : Z) (bw : Writer)
  : option (Writer * option error) :=
  match bw_err bw with
  | Some err => Some (bw, Some err)
  | None =>
      es <- set_last
              (fun x => mkEntry (Name x) (Size x) perm (sizeCompressed x)
                          (index x) (adler x))
              (bw_entries bw) ;;
      Some (mkWriter (bw_w bw) (bw_index bw) es (bw_curr bw) (bw_err bw),
            None)
  end.

(** [Writer.Write] returns the number of bytes taken and the error. *)
Definition Write (p : list byte) (bw : Writer)
  : option (Writer * (Z * option error)) :=
  match bw_err bw with
  | Some err => Some (bw, (0, Some err))
  | None =>
      dw <- bw_curr bw ;;
      let '(dw', w', e) := dataWriter_Write dw (bw_w bw) p in
      let bw' := mkWriter w' (bw_index bw) (bw_entries bw) (Some dw') e in
      match e with
      | Some err => Some (bw', (0, Some err))
      | None => Some (bw', (len p, None))
      end
  end.

(** The loop of [writeTable]. *)
Fixpoint writeRecords (es : list Entry) (dw : dataWriter) (w : W)
  : option (dataWriter * W * option error) :=
  match es with
  | [] => Some (dw, w, None)
  | x :: es' =>
      buf <- encodeEntry x ;;
      let '(dw1, w1, e1) := dataWriter_Write dw w buf in
      match e1 with
      | Some err => Some (dw1, w1, Some err)
      | None =>
          let '(dw2, w2, e2) :=
            dataWriter_Write dw1 w1 (bytes_of_string (Name x)) in
          match e2 with
          | Some err => Some (dw2, w2, Some err)
          | None => writeRecords es' dw2 w2
          end
      end
  end.

Definition writeTable (bw : Writer) : option (Writer * result Z) :=
  '(bw1, e) <- finalizeEntry bw ;;
  match e with
  | Some err => Some (bw1, Err err)
  | None =>
      '(dw, w1, e1) <- writeRecords (bw_entries bw1) newDataWriter (bw_w bw1) ;;
      match e1 with
      | Some err => Some (set_w bw1 w1, Err err)
      | None =>
          let '(dw', w2, e2) := dataWriter_Close dw w1 in
          match e2 with
          | Some err => Some (set_w bw1 w2, Err err)
          | None => Some (set_w bw1 w2, Ok (dataWriter_Adler dw'))
          end
      end
  end.

(** The footer: table offset, table checksum, entry count. *)
Definition footerBytes (table adl count : Z) : option (list byte) :=
  let wb := wBuf_of (make footerSize) in
  wb <- wBuf_Uint64 table wb ;;
  wb <- wBuf_Uint32 adl wb ;;
  wb <- wBuf_Uint32 count wb ;;
  Some (wBuf_backing wb).

Definition Close (bw : Writer) : option (Writer * option error) :=
  match bw_err bw with
  | Some err => Some (bw, Some err)
  | None =>
      '(bw1, r) <- writeTable bw ;;
      match r with
      | Err err => Some (set_err bw1 (Some err), Some err)
      | Ok adl =>
          buf <- footerBytes (bw_index bw1) adl
                   (uint32 (len (bw_entries bw1))) ;;
          let (w', e) := io_Write (bw_w bw1) buf in
          match e with
          | Some err => Some (set_err (set_w bw1 w') (Some err), Some err)
          | None =>
              Some (set_err (set_w bw1 w') (Some ErrWriteAfterClose), None)
          end
      end
  end.

End WriterModel.

Arguments dataWriter {flate}.
Arguments Writer W {flate}.

(** ** The reader *)

(** The seekable byte source, an [io.ReadSeeker] over the container's bytes
    with a cursor, as a file or a [bytes.Reader] is. *)
Record File : Type := mkFile { f_data : list byte; f_pos : Z }.

Inductive whence : Type := SeekStart | SeekEnd.

(** A read at the end of the data returns [io.EOF] and no byte. *)
Definition File_Read (f : File) (n : nat)
  : list byte * option error * File :=
  match n, skipn (Z.to_nat (f_pos f)) (f_data f) with
  | O, _ => ([], None, f)
  | _, [] => ([], Some EOF, f)
  | _, rest =>
      let bs := firstn n rest in
      (bs, None, mkFile (f_data f) (f_pos f + len bs))
  end.

(** A seek to a negative position is an error; one past the end is not. *)
Definition File_Seek (f : File) (offset : Z) (w : whence) : result File :=
  let p := match w with
           | SeekStart => offset
           | SeekEnd => len (f_data f) + offset
           end in
  if p <? 0 then Err (ErrExternal 22) else Ok (mkFile (f_data f) p).

(** [slices.Equal] on bytes. *)
Fixpoint bytes_eqb (a b : list byte) : bool :=
  match a, b with
  | [], [] => true
  | x :: a', y :: b' => Byte.eqb x y && bytes_eqb a' b'
  | _, _ => false
  end.

(** The contents of a buffer [make([]byte, n)] after a read that returned
    the bytes [bs]. *)
Definition fill (n : nat) (bs : list byte) : list byte :=
  firstn n (bs ++ make (n - length bs)).

(** [adlerReader]: [ar_r] are the bytes that the [bufio.Reader] still has to
    deliver, [ar_adler] the digest over the bytes delivered so far. *)
Record adlerReader : Type := mkAdlerReader {
  ar_r : list byte;
  ar_adler : Z
}.

Definition newAdlerReader (src : list byte) : adlerReader :=
  mkAdlerReader src adler32_New.

(** [adlerReader.Read]: an [io.TeeReader] into the hash. *)
Definition adlerReader_Read (ar : adlerReader) (n : nat)
  : list byte * option error * adlerReader :=
  match n, ar_r ar with
  | O, _ => ([], None, ar)
  | _, [] => ([], Some EOF, ar)
  | _, src =>
      let bs := firstn n src in
      (bs, None, mkAdlerReader (skipn n src) (adler32_update (ar_adler ar) bs))
  end.

Definition adlerReader_ReadByte (ar : adlerReader)
  : result byte * adlerReader :=
  match ar_r ar with
  | [] => (Err EOF, ar)
  | b :: src =>
      (Ok b, mkAdlerReader src (adler32_update (ar_adler ar) [b]))
  end.

Definition adlerReader_Adler (ar : adlerReader) : Z := ar_adler ar.

(** The state of an [adlerReader] after the decompressor has taken [k]
    bytes from it, by [Read] or [ReadByte] in any mix. *)
Definition adlerReader_pull (ar : adlerReader) (k : nat) : adlerReader :=
  mkAdlerReader (skipn k (ar_r ar))
    (adler32_update (ar_adler ar) (firstn k (ar_r ar))).

(** [compress/flate]'s reader over a source that is an [io.ByteReader], so
    that it takes from the source no more than it decodes.
    [flate_Read d src n] is a [Read] into a buffer of [n] bytes when [src]
    is what the source still holds: the bytes returned, the error, the next
    state and how many bytes of [src] the call took. *)
Class Inflater : Type := {
  decompressor : Type;
  flate_NewReader : decompressor;
  flate_Read :
    decompressor -> list byte -> nat ->
    list byte * option error * (decompressor * nat)
}.

Section ReaderModel.

Context {flate : Inflater}.

Record Reader : Type := mkReader { Entries : list Entry; br_r : File }.

(** A decompressor and the [adlerReader] it reads from. *)
Definition stream : Type := (adlerReader * decompressor)%type.

Definition stream_Read (s : stream) (n : nat)
  : list byte * option error * stream :=
  let '(bs, e, (d, k)) := flate_Read (snd s) (ar_r (fst s)) n in
  (bs, e, (adlerReader_pull (fst s) k, d)).

(** One iteration of the loop of [NewReader]; [last] is
    [i == int(count-1)]. *)
Definition readEntry (last : bool) (s : stream)
  : option (result (Entry * stream)) :=
  let '(bs, err, s1) := stream_Read s entrySize in
  let buf := fill entrySize bs in
  match err with
  | Some EOF => Some (Err ErrUnexpectedEOF)
  | Some e => Some (Err e)
  | None =>
      '(e, nlen) <- decodeEntry buf ;;
      let '(nb, err2, s2) := stream_Read s1 (Z.to_nat nlen) in
      let sbuf := fill (Z.to_nat nlen) nb in
      let next := Some (Ok (setName e (string_of_bytes sbuf), s2)) in
      match err2 with
      | Some EOF => if last then next else Some (Err ErrUnexpectedEOF)
      | Some e2 => Some (Err e2)
      | None => next
      end
  end.

(** The loop of [NewReader] from iteration [i], with [n] iterations to
    go. *)
Fixpoint readEntries (n : nat) (i count : Z) (s : stream)
  : option (result (list Entry * stream)) :=
  match n with
  | O => Some (Ok ([], s))
  | S n' =>
      r <- readEntry (i =? uint32 (count - 1)) s ;;
      match r with
      | Err e => Some (Err e)
      | Ok (x, s') =>
          r' <- readEntries n' (i + 1) count s' ;;
          match r' with
          | Err e => Some (Err e)
          | Ok (xs, s'') => Some (Ok (x :: xs, s''))
          end
      end
  end.

(** The footer decoded: table offset, table checksum, entry count. *)
Definition decodeFooter (footer : list byte) : option (Z * Z * Z) :=
  '(table, rb) <- rBuf_Uint64 footer ;;
  '(adl, rb) <- rBuf_Uint32 rb ;;
  '(count, rb) <- rBuf_Uint32 rb ;;
  Some (table, adl, count).

(** [NewReader], first phase: the header is read and checked. *)
Definition readHeader (r : File) : result File :=
  let '(bs, err, r) := File_Read r headerSize in
  let header := fill headerSize bs in
  match err with
  | Some EOF => Err ErrUnexpectedEOF
  | Some e => Err e
  | None =>
      let magic := firstn 3 header in
      let version := nth 3 header Byte.x00 in
      if negb (bytes_eqb magic magicNumber) then Err ErrUnknownFormat
      else if negb (byte.unsigned version =? Version)
      then Err ErrUnsupportedVersion
      else Ok r
  end.

(** [NewReader], second phase: the footer is read from its fixed place
    before the end, and the source is positioned at the table. *)
Definition readFooter (r : File) : option (result (Z * Z * Z * File)) :=
  match File_Seek r (- Z.of_nat footerSize) SeekEnd with
  | Err e => Some (Err e)
  | Ok r =>
      let '(bs, err, r) := File_Read r footerSize in
      let footer := fill footerSize bs in
      match err with
      | Some EOF => Some (Err ErrUnexpectedEOF)
      | Some e => Some (Err e)
      | None =>
          '(table, adl, count) <- decodeFooter footer ;;
          match File_Seek r (int64 table) SeekStart with
          | Err e => Some (Err e)
          | Ok r => Some (Ok (table, adl, count, r))
          end
      end
  end.

(** What a new [bufio.Reader] over the source will deliver: the bytes from
    the cursor on. *)
Definition File_rest (r : File) : list byte :=
  skipn (Z.to_nat (f_pos r)) (f_data r).

Definition NewReader (r : File) : option (result Reader) :=
  match readHeader r with
  | Err e => Some (Err e)
  | Ok r =>
      rf <- readFooter r ;;
      match rf with
      | Err e => Some (Err e)
      | Ok (table, adl, count, r) =>
          let ar := newAdlerReader (File_rest r) in
          res <- readEntries (Z.to_nat count) 0 count (ar, flate_NewReader) ;;
          match res with
          | Err e => Some (Err e)
          | Ok (entries, (ar', _)) =>
              if negb (adlerReader_Adler ar' =? adl)
              then Some (Err ErrInvalidChecksum)
              else Some (Ok (mkReader entries r))
          end
      end
  end.

Record entryReader : Type := mkEntryReader {
  er_ar : adlerReader;
  er_r : decompressor;
  er_count : Z;
  er_adler : Z;
  er_err : option error
}.

Definition EntryReader (br : Reader) (e : Entry)
  : result (entryReader * Reader) :=
  match File_Seek (br_r br) (int64 (index e)) SeekStart with
  | Err err => Err err
  | Ok r =>
      let ar := newAdlerReader (File_rest r) in
      Ok (mkEntryReader ar flate_NewReader (int64 (Size e)) (adler e) None,
          mkReader (Entries br) r)
  end.

(** The length of [b] after [if int64(len(b)) > er.count { b = b[:er.count] }];
    a negative bound panics. *)
Definition clip (count : Z) (n : nat) : option nat :=
  if count <? Z.of_nat n then
    if count <? 0 then None else Some (Z.to_nat count)
  else Some n.

(** The [switch] that ends [entryReader.Read]: the error that is latched and
    returned, from the error of the read underneath and the count left. *)
Definition verdict (err : option error) (count : Z) : option error :=
  match err with
  | Some EOF => if 0 <? count then Some ErrUnexpectedEOF else Some EOF
  | None => if count =? 0 then Some EOF else None
  | Some e => Some e
  end.

(** The read underneath, [if len(b) > 0 { n, err = er.r.Read(b);
    er.count -= int64(n) }] for a buffer of [n] bytes: the bytes, the error,
    and the reader, decompressor and count afterwards. *)
Definition readUnder (er : entryReader) (n : nat)
  : list byte * option error * adlerReader * decompressor * Z :=
  match n with
  | O => ([], None, er_ar er, er_r er, er_count er)
  | _ =>
      let '(bs, e, (d, k)) := flate_Read (er_r er) (ar_r (er_ar er)) n in
      (bs, e, adlerReader_pull (er_ar er) k, d, int64 (er_count er - len bs))
  end.

Definition entryReader_Read (er : entryReader) (n : nat)
  : option (list byte * option error * entryReader) :=
  match er_err er with
  | Some e => Some ([], Some e, er)
  | None =>
      n' <- clip (er_count er) n ;;
      let '(bs, err, ar, d, count) := readUnder er n' in
      let v := verdict err count in
      Some (bs, v, mkEntryReader ar d count (er_adler er) v)
  end.

(** [Read] calls with buffers of the sizes [ns], one after the other,
    whatever each returns: the bytes and the error of every call. *)
Fixpoint readSeq (ns : list nat) (er : entryReader)
  : option (list (list byte * option error) * entryReader) :=
  match ns with
  | [] => Some ([], er)
  | n :: ns' =>
      '(bs, err, er1) <- entryReader_Read er n ;;
      '(rs, er2) <- readSeq ns' er1 ;;
      Some ((bs, err) :: rs, er2)
  end.

Definition entryReader_Close (er : entryReader) : option error :=
  if negb (er_adler er =? adlerReader_Adler (er_ar er))
  then Some ErrInvalidChecksum
  else None.

(** [io.Copy] out of an entry view: [Read] with buffers of [bufsize] bytes
    until an error comes back; [io.EOF] ends the copy without error.  The
    reads are bounded by [fuel]. *)
Fixpoint copyAll (fuel : nat) (bufsize : nat) (er : entryReader)
  : option (list byte * option error * entryReader) :=
  match fuel with
  | O => Some ([], Some (ErrExternal 0), er)
  | S fuel' =>
      '(bs, err, er') <- entryReader_Read er bufsize ;;
      match err with
      | Some EOF => Some (bs, None, er')
      | Some e => Some (bs, Some e, er')
      | None =>
          '(bs', err', er'') <- copyAll fuel' bufsize er' ;;
          Some (bs ++ bs', err', er'')
      end
  end.

(** One entry as the command line tool extracts it: the view is opened,
    copied out and closed; the bytes copied and the error of [Close]. *)
Definition extract (fuel bufsize : nat) (br : Reader) (e : Entry)
  : option (result (list byte * option error)) :=
  match EntryReader br e with
  | Err err => Some (Err err)
  | Ok (er, _) =>
      '(bs, err, er') <- copyAll fuel bufsize er ;;
      match err with
      | Some err' => Some (Err err')
      | None => Some (Ok (bs, entryReader_Close er'))
      end
  end.

(** A container opened and every entry extracted in turn: name, permission
    bits, size and the result of the extraction. *)
Definition listing (fuel bufsize : nat) (data : list byte)
  : option (result (list (string * Z * Z *
                          option (result (list byte * option error))))) :=
  r <- NewReader (mkFile data 0) ;;
  match r with
  | Err err => Some (Err err)
  | Ok br =>
      Some (Ok (map (fun e => (Name e, Perm e, Size e,
                               extract fuel bufsize br e))
                  (Entries br)))
  end.

End ReaderModel.

(** ** Scripts of writer calls *)

Inductive op : Type :=
| OpCreate (name : string)
| OpSetPerms (perm : Z)
| OpWrite (p : list byte)
| OpClose.

Section Scripts.

Context {W : Type} {sink : IoWriter W} {flate : Deflater} {path : PathLib}.

Definition step (o : op) (bw : Writer W) : option (Writer W * option error) :=
  match o with
  | OpCreate name => Create name bw
  | OpSetPerms perm => SetPerms perm bw
  | OpWrite p => '(bw', (_, e)) <- Write p bw ;; Some (bw', e)
  | OpClose => Close bw
  end.

(** The calls of [ops] in order, whatever each returns; the errors returned
    are collected. *)
Fixpoint run (ops : list op) (bw : Writer W)
  : option (Writer W * list (option error)) :=
  match ops with
  | [] => Some (bw, [])
  | o :: ops' =>
      '(bw1, e) <- step o bw ;;
      '(bw2, es) <- run ops' bw1 ;;
      Some (bw2, e :: es)
  end.

(** One file as the command line tool adds it: [Create], [SetPerms], then
    the content. *)
Definition addFile (f : string * Z * list byte) : list op :=
  let '(name, perm, content) := f in
  [OpCreate name; OpSetPerms perm; OpWrite content].

Definition archiveOps (files : list (string * Z * list byte)) : list op :=
  flat_map addFile files ++ [OpClose].

(** A whole archive written to the sink [w]: the Writer at the end and the
    errors of the calls. *)
Definition writeArchive (w : W) (files : list (string * Z * list byte))
  : option (result (Writer W * list (option error))) :=
  match NewWriter w with
  | Err e => Some (Err e)
  | Ok bw => r <- run (archiveOps files) bw ;; Some (Ok r)
  end.

End Scripts.

(** ** Instances *)

(** An in-memory sink that takes every write, as a [bytes.Buffer]. *)
Definition Buffer : Type := list byte.

#[global] Instance Buffer_Writer : IoWriter Buffer :=
  fun w p => (w ++ p, None).

(** A sink with room for [lw_room] more bytes; a write that does not fit
    fails and writes nothing. *)
Record LimitedWriter : Type := mkLimited { lw_out : list byte; lw_room : nat }.

#[global] Instance Limited_Writer : IoWriter LimitedWriter :=
  fun w p =>
    if (length p <=? lw_room w)%nat
    then (mkLimited (lw_out w ++ p) (lw_room w - length p), None)
    else (w, Some (ErrExternal 28)).

(** A compressor that only emits stored blocks (RFC 1951, section 3.2.4):
    one non-final block of length 1 for every byte written, and on [Close]
    the empty final stored block with which Go's writer ends every
    stream. *)
Definition storedBlock (b : byte) : list byte :=
  [Byte.x00; Byte.x01; Byte.x00; Byte.xfe; Byte.xff; b].

Definition storedFinal : list byte :=
  [Byte.x01; Byte.x00; Byte.x00; Byte.xff; Byte.xff].

#[global] Instance Stored_Deflater : Deflater := {|
  compressor := unit;
  flate_NewWriter := tt;
  flate_Write := fun _ p => (tt, flat_map storedBlock p);
  flate_Close := fun _ => storedFinal
|}.

(** A decoder for streams of stored blocks: the data and the number of
    bytes of the stream, which ends with the first final block. *)
Fixpoint inflateStored (fuel : nat) (src : list byte)
  : option (list byte * nat) :=
  match fuel with
  | O => None
  | S fuel' =>
      match src with
      | hdr :: l0 :: l1 :: n0 :: n1 :: body =>
          let LEN := le_combine [l0; l1] in
          let NLEN := le_combine [n0; n1] in
          if negb (Z.land (byte.unsigned hdr) 6 =? 0) then None
          else if negb (NLEN =? Z.lxor LEN 65535) then None
          else if (length body <? Z.to_nat LEN)%nat then None
          else
            let data := firstn (Z.to_nat LEN) body in
            if Z.testbit (byte.unsigned hdr) 0 then
              Some (data, (5 + Z.to_nat LEN)%nat)
            else
              '(d, k) <- inflateStored fuel' (skipn (Z.to_nat LEN) body) ;;
              Some (data ++ d, (5 + Z.to_nat LEN + k)%nat)
      | _ => None
      end
  end.

Definition inflate (src : list byte) : option (list byte * nat) :=
  inflateStored (S (length src)) src.

(** A decompressor that decodes the whole stream at the first [Read], as
    Go's does for a stream that expands to less than its 32 KiB window:
    the data goes to [toRead] and the end of the stream is remembered as
    [io.EOF]; a [Read] that empties [toRead] returns the remembered error
    together with the last bytes. *)
Inductive eager : Type :=
| Fresh
| Decoded (toRead : list byte) (err : option error).

Section Eager.

Variable decode : list byte -> option (list byte * nat).

Definition eager_Read (d : eager) (src : list byte) (n : nat)
  : list byte * option error * (eager * nat) :=
  let '(toRead, err, k) :=
    match d with
    | Fresh =>
        match decode src with
        | Some (out, k) => (out, Some EOF, k)
        | None => ([], Some ErrUnexpectedEOF, length src)
        end
    | Decoded t e => (t, e, O)
    end in
  match toRead with
  | [] => ([], err, (Decoded [] err, k))
  | _ =>
      match skipn n toRead with
      | [] => (firstn n toRead, err, (Decoded [] err, k))
      | rest => (firstn n toRead, None, (Decoded rest err, k))
      end
  end.

Definition Eager_Inflater : Inflater := {|
  decompressor := eager;
  flate_NewReader := Fresh;
  flate_Read := eager_Read
|}.

End Eager.

#[global] Instance Stored_Inflater : Inflater := Eager_Inflater inflate.

(** [filepath.IsLocal] on Unix, on the components between slashes: the path
    is not empty, not absolute, and, once cleaned, does not begin with a
    parent directory. *)
Fixpoint components (s : string) : list string :=
  match s with
  | EmptyString => [EmptyString]
  | String c s' =>
      if Ascii.eqb c "/"%char then EmptyString :: components s'
      else match components s' with
           | p :: ps => String c p :: ps
           | [] => [String c EmptyString]
           end
  end.

(** [filepath.Clean] of a relative path, on components; the result is in
    reverse order. *)
Fixpoint cleanComponents (out : list string) (cs : list string)
  : list string :=
  match cs with
  | [] => out
  | c :: cs' =>
      if String.eqb c "" || String.eqb c "." then cleanComponents out cs'
      else if String.eqb c ".." then
        match out with
        | top :: out' =>
            if String.eqb top ".." then cleanComponents (c :: out) cs'
            else cleanComponents out' cs'
        | [] => cleanComponents [c] cs'
        end
      else cleanComponents (c :: out) cs'
  end.

Definition unixIsLocal (p : string) : bool :=
  match p with
  | EmptyString => false
  | String c _ =>
      if Ascii.eqb c "/"%char then false
      else
        let cs := components p in
        let hasDots :=
          existsb (fun c => String.eqb c "." || String.eqb c "..") cs in
        let cs' := if hasDots then rev (cleanComponents [] cs) else cs in
        match cs' with
        | first :: _ => negb (String.eqb first "..")
        | [] => true
        end
  end.

#[global] Instance Unix_PathLib : PathLib := unixIsLocal.

(** The scenario of the specification: [a.txt] holding [hello] with mode
    0644, and the empty [dir/b.txt] with mode 0755. *)
Definition scenarioFiles : list (string * Z * list byte) :=
  [("a.txt"%string, 420, bytes_of_string "hello");
   ("dir/b.txt"%string, 493, [])].

Definition scenarioArchive : list byte :=
  Eval vm_compute in
    match writeArchive (W := Buffer) [] scenarioFiles with
    | Some (Ok (bw, _)) => bw_w bw
    | _ => []
    end.


(** ** Notions used in the statements *)

(** The fixed part of a record, field after field. *)
Definition recordLayout (e : Entry) : list byte :=
  le_split 8 (sizeCompressed e) ++ le_split 8 (Size e) ++
  le_split 8 (index e) ++ le_split 4 (adler e) ++
  le_split 2 (Perm e) ++
  le_split 2 (uint16 (Z.of_nat (String.length (Name e)))).


Section ViewNotions.

Context {flate : Inflater}.

(** The error of the read underneath. *)
Definition underErr (er : entryReader) (n : nat) : option error :=
  let '(_, err, _, _, _) := readUnder er n in err.

(** The reader underneath a view has delivered a prefix of its source, and
    its digest is the Adler-32 of that prefix. *)
Definition pulled (src : list byte) (er : entryReader) : Prop :=
  exists k, er_ar er = adlerReader_pull (newAdlerReader src) k.

End ViewNotions.

Section WriterNotions.

Context {W : Type} {flate : Deflater}.

(** A Writer with no error latched has an entry open. *)
Definition ready (bw : Writer W) : Prop :=
  bw_err bw = None -> bw_curr bw <> None /\ bw_entries bw <> [].

(** A Writer without entries has written nothing after the header [w0] and
    holds the error it started with or the error of a rejected name. *)
Definition entryless (w0 : W) (bw : Writer W) : Prop :=
  bw_entries bw = [] ->
  bw_w bw = w0 /\
  (bw_err bw = Some ErrNoValidEntry \/ bw_err bw = Some ErrPathIsNotSimple).

End WriterNotions.

(** The names passed to the [Create] calls that returned no error, in the
    order of the calls. *)
Fixpoint created (ops : list op) (rs : list (option error)) : list string :=
  match ops, rs with
  | OpCreate name :: ops', None :: rs' => name :: created ops' rs'
  | _ :: ops', _ :: rs' => created ops' rs'
  | _, _ => []
  end.

(** Entries against the compressed streams written for them, the first
    stream starting at [base]: offsets and sizes as the 64-bit counters
    hold them. *)
Fixpoint placed (base : Z) (es : list Entry) (ss : list (list byte))
  : Prop :=
  match es, ss with
  | [], [] => True
  | e :: es', s :: ss' =>
      index e = uint64 base /\ sizeCompressed e = uint64 (len s) /\
      adler e = adler32 s /\ placed (base + len s) es' ss'
  | _, _ => False
  end.

(** The same without wrap-around: every entry starts where the one before
    it ends, [sizeCompressed] is the length of its stream, which is not
    empty, and [adler] the checksum of that stream. *)
Fixpoint laidOut (base : Z) (es : list Entry) (ss : list (list byte))
  : Prop :=
  match es, ss with
  | [], [] => True
  | e :: es', s :: ss' =>
      index e = base /\ sizeCompressed e = len s /\ 0 < len s /\
      adler e = adler32 s /\ laidOut (base + len s) es' ss'
  | _, _ => False
  end.

Section TableNotions.

Context {flate : Deflater}.

(** The compressed stream of the writes [chunks] followed by [Close]. *)
Fixpoint deflateChunks (c : compressor) (chunks : list (list byte))
  : list byte :=
  match chunks with
  | [] => flate_Close c
  | p :: ps => let (c', out) := flate_Write c p in out ++ deflateChunks c' ps
  end.

(** The writes of [writeTable]: for every entry its 32 bytes, then its
    name. *)
Definition tableChunks (es : list Entry) : list (list byte) :=
  flat_map (fun x => [recordLayout x; bytes_of_string (Name x)]) es.

Definition tableStream (es : list Entry) : list byte :=
  deflateChunks flate_NewWriter (tableChunks es).

(** A stream that the compressor has closed. *)
Definition closedStream (s : list byte) : Prop :=
  exists (a : list byte) (c : compressor), s = a ++ flate_Close c.

(** A Writer over a buffer between two entries: the buffer holds the header
    and the streams [ss] of the entries. *)
Definition settled (bw : Writer Buffer) (ss : list (list byte)) : Prop :=
  bw_w bw = headerBytes ++ concat ss /\
  Forall closedStream ss /\
  placed 4 (bw_entries bw) ss /\
  bw_index bw = uint64 (4 + len (concat ss)) /\
  bw_entries bw <> [].

(** A Writer over a buffer with an entry open: [ss] are the streams of the
    entries before it, [cur] the part of its own stream written so far. *)
Definition live (bw : Writer Buffer) (ss : list (list byte))
    (cur : list byte) : Prop :=
  exists (done : list Entry) (e : Entry) (dw : dataWriter),
    bw_w bw = headerBytes ++ concat ss ++ cur /\
    Forall closedStream ss /\
    placed 4 done ss /\
    bw_index bw = uint64 (4 + len (concat ss)) /\
    bw_entries bw = done ++ [e] /\
    index e = bw_index bw /\
    bw_curr bw = Some dw /\
    compCounter dw = uint64 (len cur) /\
    dw_adler dw = adler32 cur.

(** What holds of every Writer over a buffer that started empty. *)
Definition layout (bw : Writer Buffer) : Prop :=
  (bw_err bw = Some ErrNoValidEntry ->
   bw_w bw = headerBytes /\ bw_index bw = 4 /\ bw_entries bw = []) /\
  (bw_err bw = None -> exists ss cur, live bw ss cur).

End TableNotions.

(** Does a name hold a parent-directory segment? *)
Definition hasParentSegment (name : string) : bool :=
  existsb (String.eqb "..") (components name).

(** The entries of the scenario as its table records them, the Reader that
    opening the container gives, and a view on [a.txt]. *)
Definition scenarioEntries : list Entry :=
  [mkEntry "a.txt" 5 420 35 4 3931508234;
   mkEntry "dir/b.txt" 0 493 5 39 50790912].

Definition scenarioReader : Reader :=
  mkReader scenarioEntries (mkFile scenarioArchive 44).

Definition scenarioView : entryReader :=
  mkEntryReader (newAdlerReader (skipn 4 scenarioArchive)) flate_NewReader
    5 3931508234 None.


(** A Writer over a sink with room for ten bytes, after the header and
    [Create] of one entry. *)
Definition crampedWriter : option (Writer LimitedWriter) :=
  match NewWriter (mkLimited [] 10) with
  | Ok bw => '(bw', _) <- Create "a" bw ;; Some bw'
  | Err _ => None
  end.

(** ** Further notions *)


(** A file to archive: name, permission bits, content. *)
Definition file : Type := (string * Z * list byte)%type.

Definition fileName (f : file) : string := fst (fst f).
Definition filePerm (f : file) : Z := snd (fst f).
Definition fileContent (f : file) : list byte := snd f.

Section ArchiveNotions.

Context {flate : Deflater} {path : PathLib}.

(** A name that [Create] lets through. *)
Definition validName (name : string) : Prop :=
  negb (filepath_IsLocal name) || hasBackslash name = false.

(** The compressed stream of an entry whose content is handed over in one
    [Write]. *)
Definition fileStream (content : list byte) : list byte :=
  deflateChunks flate_NewWriter [content].

(** The records that the Writer holds for the files when the first of them
    is created at offset [idx], and the offset after the last. *)
Fixpoint fileEntries (idx : Z) (files : list file) : list Entry :=
  match files with
  | [] => []
  | f :: fs =>
      let s := fileStream (fileContent f) in
      mkEntry (fileName f) (uint64 (len (fileContent f))) (filePerm f)
        (uint64 (len s)) idx (adler32 s)
      :: fileEntries (uint64 (idx + uint64 (len s))) fs
  end.

Fixpoint endIndex (idx : Z) (files : list file) : Z :=
  match files with
  | [] => idx
  | f :: fs =>
      endIndex (uint64 (idx + uint64 (len (fileStream (fileContent f))))) fs
  end.

Definition fileStreams (files : list file) : list byte :=
  concat (map (fun f => fileStream (fileContent f)) files).

(** The bytes of the whole container for the files. *)
Definition archiveBytes (files : list file) : list byte :=
  let es := fileEntries 4 files in
  headerBytes ++ fileStreams files ++ tableStream es ++
  le_split 8 (endIndex 4 files) ++
  le_split 4 (adler32 (tableStream es)) ++
  le_split 4 (uint32 (len es)).

(** The Writer after [Create], [SetPerms] and one [Write] for a file, when
    the buffer held [w], the offset was [idx] and the entries [done]
    before. *)
Definition written (w : Buffer) (idx : Z) (done : list Entry) (f : file)
  : Writer Buffer :=
  let (c, out) := flate_Write flate_NewWriter (fileContent f) in
  mkWriter (w ++ out) idx
    (done ++ [mkEntry (fileName f) 0 (filePerm f) 0 idx 0])
    (Some (mkDataWriter (uint64 (len (fileContent f))) (uint64 (len out))
             (adler32 out) c))
    None.

End ArchiveNotions.

Section RoundTripNotions.

Context {flate : Deflater} {path : PathLib}.

Variable decode : list byte -> option (list byte * nat).

(** [decode] undoes the compressor: from a closed stream, whatever follows
    it, it gives back the chunks that were written and the length of the
    stream. *)
Definition codec : Prop :=
  forall (chunks : list (list byte)) (rest : list byte),
    decode (deflateChunks flate_NewWriter chunks ++ rest) =
    Some (concat chunks, length (deflateChunks flate_NewWriter chunks)).

(** A stream of the eager decompressor that will deliver [t] and then
    [io.EOF], and leave its [adlerReader] as [ar']: it has decoded already,
    or it is fresh and its source decodes to [t]. *)
Definition served (s : adlerReader * eager) (t : list byte)
    (ar' : adlerReader) : Prop :=
  s = (ar', Decoded t (Some EOF)) \/
  exists (ar : adlerReader) (k : nat),
    s = (ar, Fresh) /\ decode (ar_r ar) = Some (t, k) /\
    ar' = adlerReader_pull ar k.

(** A file whose record fits the table: a name that [Create] lets through,
    not empty and shorter than 65536 bytes, and 16 permission bits. *)
Definition archivable (f : file) : Prop :=
  validName (fileName f) /\
  0 < Z.of_nat (String.length (fileName f)) < 65536 /\
  is_uint 16 (filePerm f).

(** What [Close] returns for the view of an entry after its content has
    been copied out: the view of an empty entry never reads its stream, so
    that its digest is still that of no bytes. *)
Definition closeError (content : list byte) : option error :=
  match content with
  | [] =>
      if negb (adler32 (fileStream []) =? adler32_New)
      then Some ErrInvalidChecksum else None
  | _ => None
  end.

(** The files as the listing of their archive shows them. *)
Definition fileListing (files : list file)
  : list (string * Z * Z * option (result (list byte * option error))) :=
  map (fun f => (fileName f, filePerm f, len (fileContent f),
                 Some (Ok (fileContent f, closeError (fileContent f)))))
    files.

End RoundTripNotions.

(** A record that the table can hold: typed fields and a name that is not
    empty and shorter than 65536 bytes. *)
Definition entryOk (x : Entry) : Prop :=
  Entry_typed x /\ 0 < Z.of_nat (String.length (Name x)) < 65536.

(** ** The command line tool: names

    The loop with which the tool takes the leading parent directories off
    a relative name before it records the file under it,
    [for strings.HasPrefix(name, "../") { name = name[3:] }]. *)
Fixpoint stripParents (name : string) : string :=
  if prefix "../" name then
    match name with
    | String _ (String _ (String _ rest)) => stripParents rest
    | _ => name
    end
  else name.

(** [k] times [../]. *)
Fixpoint parents (k : nat) : string :=
  match k with
  | O => EmptyString
  | S k' => String.append "../" (parents k')
  end.
(** * Properties *)

(** ** Bytes and little-endian fields *)

Lemma len_app {A : Type} (a b : list A) : len (a ++ b) = len a + len b.
Proof. unfold len. rewrite length_app. lia. Qed.

Lemma len_nonneg {A : Type} (a : list A) : 0 <= len a.
Proof. unfold len. lia. Qed.

Lemma length_bytes_of_string (s : string) :
  length (bytes_of_string s) = String.length s.
Proof.
  unfold bytes_of_string, list_byte_of_string.
  rewrite length_map.
  induction s as [|c s IH]; simpl; [reflexivity | now rewrite IH].
Qed.

Lemma length_string_of_bytes (b : list byte) :
  String.length (string_of_bytes b) = length b.
Proof.
  rewrite <- length_bytes_of_string.
  unfold bytes_of_string, string_of_bytes.
  now rewrite list_byte_of_string_of_list_byte.
Qed.

Lemma uint_small (w z : Z) : is_uint w z -> z mod 2 ^ w = z.
Proof. intros H. apply Z.mod_small. exact H. Qed.

Lemma wBuf_put_fits (n : nat) (u : Z) (done rest : list byte) :
  (n <= length rest)%nat ->
  wBuf_put n u (mkWBuf done rest) =
  Some (mkWBuf (done ++ le_split n u) (skipn n rest)).
Proof.
  intros H. unfold wBuf_put. cbn [wb_rest wb_done].
  destruct (Nat.ltb_spec (length rest) n); [lia | reflexivity].
Qed.

Lemma rBuf_get_split (n : nat) (z : Z) (r : list byte) :
  rBuf_get n (le_split n z ++ r) = Some (z mod 2 ^ (Z.of_nat n * 8), r).
Proof.
  unfold rBuf_get.
  assert (L : length (le_split n z) = n) by apply length_le_split.
  destruct (Nat.ltb_spec (length (le_split n z ++ r)) n) as [H|_].
  - rewrite length_app in H. lia.
  - rewrite firstn_app, skipn_app, L, Nat.sub_diag.
    rewrite firstn_all2, skipn_all2 by lia.
    cbn [firstn skipn]. rewrite app_nil_r. cbn [app].
    now rewrite le_combine_split.
Qed.

Lemma rBuf_get_inv (n : nat) (rb r : list byte) (z : Z) :
  rBuf_get n rb = Some (z, r) ->
  rb = le_split n z ++ r /\ 0 <= z < 2 ^ (8 * Z.of_nat n).
Proof.
  unfold rBuf_get.
  destruct (Nat.ltb_spec (length rb) n) as [|H]; [discriminate|].
  intros E. injection E as <- <-.
  assert (L : length (firstn n rb) = n) by (rewrite length_firstn; lia).
  split.
  - rewrite <- L at 1. rewrite split_le_combine. now rewrite firstn_skipn.
  - pose proof (le_combine_bound (firstn n rb)) as B.
    rewrite L in B. exact B.
Qed.

Lemma length_recordLayout (e : Entry) : length (recordLayout e) = entrySize.
Proof.
  unfold recordLayout. rewrite !length_app, !length_le_split. reflexivity.
Qed.

Lemma encodeEntry_layout (e : Entry) : encodeEntry e = Some (recordLayout e).
Proof.
  unfold encodeEntry, wBuf_Uint64, wBuf_Uint32, wBuf_Uint16, wBuf_of, make,
    entrySize.
  repeat (rewrite wBuf_put_fits by (cbn [repeat skipn length]; lia);
          cbn [repeat skipn]).
  unfold wBuf_backing, recordLayout. cbn [wb_done wb_rest].
  rewrite app_nil_r. cbn [app]. now rewrite <- !app_assoc.
Qed.

Lemma decodeEntry_layout (e : Entry) :
  Entry_typed e ->
  decodeEntry (recordLayout e) =
  Some (setName e EmptyString, uint16 (Z.of_nat (String.length (Name e)))).
Proof.
  intros [H1 H2 H3 H4 H5].
  unfold decodeEntry, recordLayout, rBuf_Uint64, rBuf_Uint32, rBuf_Uint16.
  rewrite rBuf_get_split, (uint_small 64) by assumption.
  rewrite rBuf_get_split, (uint_small 64) by assumption.
  rewrite rBuf_get_split, (uint_small 64) by assumption.
  rewrite rBuf_get_split, (uint_small 32) by assumption.
  rewrite rBuf_get_split, (uint_small 16) by assumption.
  rewrite <- (app_nil_r (le_split 2 _)), rBuf_get_split.
  unfold setName, uint16.
  now rewrite Z.mod_mod by (cbv; discriminate).
Qed.

Lemma decodeEntry_inv (buf : list byte) (e : Entry) (nlen : Z) :
  length buf = entrySize ->
  decodeEntry buf = Some (e, nlen) ->
  Entry_typed e /\ 0 <= nlen < 2 ^ 16 /\ Name e = EmptyString /\
  buf = le_split 8 (sizeCompressed e) ++ le_split 8 (Size e) ++
        le_split 8 (index e) ++ le_split 4 (adler e) ++
        le_split 2 (Perm e) ++ le_split 2 nlen.
Proof.
  intros L. unfold decodeEntry, rBuf_Uint64, rBuf_Uint32, rBuf_Uint16.
  destruct (rBuf_get 8 buf) as [[a r1]|] eqn:E1; [|discriminate].
  destruct (rBuf_get 8 r1) as [[b r2]|] eqn:E2; [|discriminate].
  destruct (rBuf_get 8 r2) as [[c r3]|] eqn:E3; [|discriminate].
  destruct (rBuf_get 4 r3) as [[d r4]|] eqn:E4; [|discriminate].
  destruct (rBuf_get 2 r4) as [[p r5]|] eqn:E5; [|discriminate].
  destruct (rBuf_get 2 r5) as [[n r6]|] eqn:E6; [|discriminate].
  intros E. injection E as <- <-.
  apply rBuf_get_inv in E1, E2, E3, E4, E5, E6.
  destruct E1 as [-> B1], E2 as [-> B2], E3 as [-> B3], E4 as [-> B4],
    E5 as [-> B5], E6 as [-> B6].
  rewrite !length_app, !length_le_split in L. unfold entrySize in L.
  assert (r6 = []) by (destruct r6; [reflexivity | simpl in L; lia]).
  subst r6. rewrite app_nil_r.
  repeat split; cbn; lia.
Qed.

(** C2. A table record is written as 32 bytes, little-endian, in the order
    compressed size (8), uncompressed size (8), offset (8), checksum (4),
    permission bits (2), name length (2), followed by the bytes of the
    name; for an entry whose fields have their Go types and whose name is
    shorter than 65536 bytes, decoding the bytes written gives the entry
    back, and every byte sequence that decodes to a record is the encoding
    of that record. *)
Theorem entry_record_codec (e : Entry) (rest : list byte) :
  Entry_typed e ->
  Z.of_nat (String.length (Name e)) < 65536 ->
  recordBytes e =
    Some (le_split 8 (sizeCompressed e) ++ le_split 8 (Size e) ++
          le_split 8 (index e) ++ le_split 4 (adler e) ++
          le_split 2 (Perm e) ++
          le_split 2 (Z.of_nat (String.length (Name e))) ++
          bytes_of_string (Name e)) /\
  (forall buf, encodeEntry e = Some buf -> length buf = 32%nat) /\
  (forall rec, recordBytes e = Some rec ->
               parseRecord (rec ++ rest) = Some (e, rest)) /\
  (forall bs x rest',
      parseRecord bs = Some (x, rest') ->
      exists rec, recordBytes x = Some rec /\ bs = rec ++ rest' /\
                  Entry_typed x /\ Z.of_nat (String.length (Name x)) < 65536).
Proof.
  intros T N.
  assert (U : uint16 (Z.of_nat (String.length (Name e))) =
              Z.of_nat (String.length (Name e))).
  { unfold uint16. apply Z.mod_small. lia. }
  assert (R : recordBytes e = Some (recordLayout e ++ bytes_of_string (Name e))).
  { unfold recordBytes. now rewrite encodeEntry_layout. }
  split; [|split; [|split]].
  - rewrite R. unfold recordLayout. rewrite U. now rewrite <- !app_assoc.
  - intros buf E. rewrite encodeEntry_layout in E.
    assert (buf = recordLayout e) by congruence. subst buf.
    apply length_recordLayout.
  - intros rec E.
    assert (rec = recordLayout e ++ bytes_of_string (Name e)) by congruence.
    subst rec. clear E. unfold parseRecord.
    pose proof (length_recordLayout e) as L.
    pose proof (length_bytes_of_string (Name e)) as LN.
    destruct (Nat.ltb_spec
                (length ((recordLayout e ++ bytes_of_string (Name e)) ++ rest))
                entrySize) as [H|_].
    { rewrite !length_app in H. lia. }
    rewrite <- app_assoc.
    rewrite firstn_app, skipn_app, L, Nat.sub_diag.
    rewrite firstn_all2, skipn_all2 by lia.
    cbn [firstn skipn]. rewrite app_nil_r. cbn [app].
    rewrite decodeEntry_layout by assumption. rewrite U, Nat2Z.id.
    destruct (Nat.ltb_spec (length (bytes_of_string (Name e) ++ rest))
                (String.length (Name e))) as [H|_].
    { rewrite length_app in H. lia. }
    rewrite firstn_app, skipn_app, LN, Nat.sub_diag.
    rewrite firstn_all2, skipn_all2 by lia.
    cbn [firstn skipn]. rewrite app_nil_r. cbn [app].
    unfold string_of_bytes, bytes_of_string.
    rewrite string_of_list_byte_of_string.
    destruct e; reflexivity.
  - intros bs x rest'. unfold parseRecord.
    destruct (Nat.ltb_spec (length bs) entrySize) as [|Hb]; [discriminate|].
    destruct (decodeEntry (firstn entrySize bs)) as [[e0 nlen]|] eqn:D;
      [|discriminate].
    destruct (Nat.ltb_spec (length (skipn entrySize bs)) (Z.to_nat nlen))
      as [|Hn]; [discriminate|].
    intros E.
    assert (Ex : x = setName e0 (string_of_bytes
                   (firstn (Z.to_nat nlen) (skipn entrySize bs))))
      by congruence.
    assert (Er : rest' = skipn (Z.to_nat nlen) (skipn entrySize bs))
      by congruence.
    subst x rest'. clear E.
    apply decodeEntry_inv in D; [|rewrite length_firstn; lia].
    destruct D as (T0 & Bn & _ & Lay).
    set (nm := firstn (Z.to_nat nlen) (skipn entrySize bs)).
    assert (LN : String.length (string_of_bytes nm) = Z.to_nat nlen).
    { rewrite length_string_of_bytes. unfold nm. rewrite length_firstn. lia. }
    exists (firstn entrySize bs ++ nm). split; [|split; [|split]].
    + unfold recordBytes. rewrite encodeEntry_layout.
      unfold recordLayout, setName. cbn [Name Size Perm sizeCompressed index adler].
      rewrite LN, Z2Nat.id by lia.
      unfold uint16. rewrite Z.mod_small by lia.
      rewrite Lay at 1.
      unfold bytes_of_string, string_of_bytes.
      now rewrite list_byte_of_string_of_list_byte.
    + unfold nm. rewrite <- app_assoc, firstn_skipn, firstn_skipn. reflexivity.
    + destruct T0. constructor; assumption.
    + cbn [Name setName]. fold nm. rewrite LN. lia.
Qed.

(** ** Machine integers *)

Lemma int64_small (z : Z) : - 2 ^ 63 <= z < 2 ^ 63 -> int64 z = z.
Proof. intros H. unfold int64. rewrite Z.mod_small; lia. Qed.

Lemma int64_of_uint64 (z : Z) :
  0 <= z < 2 ^ 64 -> 0 <= int64 z -> int64 z = z.
Proof.
  unfold int64. intros H Q.
  destruct (Z_lt_le_dec z (2 ^ 63)).
  - rewrite Z.mod_small; lia.
  - exfalso.
    replace (z + 2 ^ 63) with (z - 2 ^ 63 + 1 * 2 ^ 64) in Q by lia.
    rewrite Z_mod_plus_full, Z.mod_small in Q; lia.
Qed.

Lemma uint64_small (z : Z) : 0 <= z < 2 ^ 64 -> uint64 z = z.
Proof. intros H. unfold uint64. now apply Z.mod_small. Qed.

(** ** Adler-32 *)

Lemma adler32_update_app (d : Z) (a b : list byte) :
  adler32_update d (a ++ b) = adler32_update (adler32_update d a) b.
Proof. unfold adler32_update. apply fold_left_app. Qed.






(** ** The adlerReader *)

Lemma adlerReader_pull_pull (ar : adlerReader) (j k : nat) :
  adlerReader_pull (adlerReader_pull ar j) k = adlerReader_pull ar (j + k).
Proof.
  unfold adlerReader_pull. cbn [ar_r ar_adler].
  rewrite <- adler32_update_app, skipn_skipn.
  f_equal; [f_equal; lia|].
  f_equal.
  rewrite <- (firstn_skipn j (ar_r ar)) at 3.
  destruct (Nat.le_gt_cases j (length (ar_r ar))) as [H|H].
  - rewrite firstn_app, firstn_firstn, length_firstn.
    replace (Nat.min (j + k) j) with j by lia.
    replace (j + k - Nat.min j (length (ar_r ar)))%nat with k by lia.
    reflexivity.
  - rewrite (skipn_all2 (n := j)) by lia.
    rewrite firstn_nil, !app_nil_r.
    rewrite !firstn_all2 by lia. reflexivity.
Qed.

Lemma adlerReader_pull_new (src : list byte) (k : nat) :
  adlerReader_pull (newAdlerReader src) k =
  mkAdlerReader (skipn k src) (adler32 (firstn k src)).
Proof. reflexivity. Qed.

(** Taking bytes one at a time with [ReadByte] feeds the digest like taking
    them at once. *)
Lemma adlerReader_ReadByte_pull (ar : adlerReader) :
  snd (adlerReader_ReadByte ar) = adlerReader_pull ar 1 \/
  (ar_r ar = [] /\ adlerReader_ReadByte ar = (Err EOF, ar)).
Proof.
  unfold adlerReader_ReadByte, adlerReader_pull.
  destruct (ar_r ar) as [|b src] eqn:E; [right; auto | left; reflexivity].
Qed.

Lemma adlerReader_Read_pull (ar : adlerReader) (n : nat) :
  snd (adlerReader_Read ar n) = adlerReader_pull ar n \/
  (ar_r ar = [] /\ snd (adlerReader_Read ar n) = ar).
Proof.
  unfold adlerReader_Read, adlerReader_pull.
  destruct n as [|n].
  - left. destruct ar as [src d]. cbn. reflexivity.
  - destruct (ar_r ar) as [|b src] eqn:E; [right; auto | left; reflexivity].
Qed.

(** ** Entry views *)

Section EntryReaderProps.

Context {flate : Inflater}.

Lemma clip_bound (count : Z) (n n' : nat) :
  clip count n = Some n' -> (n' <= n)%nat /\ Z.of_nat n' <= count.
Proof.
  unfold clip.
  destruct (Z.ltb_spec count (Z.of_nat n)).
  - destruct (Z.ltb_spec count 0); [discriminate|].
    intros [= <-]. lia.
  - intros [= <-]. lia.
Qed.

Lemma clip_total (count : Z) (n : nat) :
  0 <= count -> exists n', clip count n = Some n'.
Proof.
  intros H. unfold clip.
  destruct (Z.ltb_spec count (Z.of_nat n)); [|eauto].
  destruct (Z.ltb_spec count 0); [lia | eauto].
Qed.

Lemma entryReader_Read_latched (er : entryReader) (e : error) (m : nat) :
  er_err er = Some e -> entryReader_Read er m = Some ([], Some e, er).
Proof. intros H. unfold entryReader_Read. now rewrite H. Qed.

(** C5. A view that was opened for [S] bytes and has produced [produced]
    of them so far: a [Read] returns; if the decompressor reports the end
    of its stream while fewer than [S] bytes have been produced in total,
    the [Read] returns ErrUnexpectedEOF; if the total reaches [S], the
    [Read] returns io.EOF, whatever compressed bytes are left in the
    source; and an error returned once is returned by every later [Read],
    which no longer touches the view. *)
Theorem entryReader_Read_contract
    (S produced : Z) (er : entryReader) (n : nat) :
  (forall d src m, (length (fst (fst (flate_Read d src m))) <= m)%nat) ->
  0 <= produced <= S -> S < 2 ^ 63 ->
  er_count er = S - produced ->
  er_err er = None ->
  exists n' bs v er',
    clip (er_count er) n = Some n' /\
    entryReader_Read er n = Some (bs, v, er') /\
    er_err er' = v /\
    er_count er' = S - (produced + len bs) /\
    produced + len bs <= S /\
    (underErr er n' = Some EOF -> produced + len bs < S ->
     v = Some ErrUnexpectedEOF) /\
    (underErr er n' = None \/ underErr er n' = Some EOF ->
     produced + len bs = S -> v = Some EOF) /\
    (forall e, v = Some e ->
               forall m, entryReader_Read er' m = Some ([], Some e, er')).
Proof.
  intros Law Hp HS Hc He.
  destruct (clip_total (er_count er) n) as [n' Hn']; [lia|].
  pose proof (clip_bound _ _ _ Hn') as [_ Hb].
  unfold entryReader_Read, underErr. rewrite He, Hn'.
  destruct (readUnder er n') as [[[[bs err] ar] d] count] eqn:U.
  assert (Hlen : len bs <= Z.of_nat n' /\ count = er_count er - len bs).
  { unfold readUnder in U. destruct n' as [|k].
    - injection U as <- <- <- <- <-. unfold len. cbn. lia.
    - specialize (Law (er_r er) (ar_r (er_ar er)) (Datatypes.S k)).
      destruct (flate_Read (er_r er) (ar_r (er_ar er)) (Datatypes.S k))
        as [[bs0 e0] [d0 k0]].
      cbn [fst] in Law.
      injection U as <- <- <- <- <-.
      unfold len. split; [lia|].
      apply int64_small. unfold len in Hb. lia. }
  destruct Hlen as [Hl Hcount].
  exists n', bs, (verdict err count),
    (mkEntryReader ar d count (er_adler er) (verdict err count)).
  rewrite U. cbv beta iota.
  repeat split.
  - cbn. lia.
  - lia.
  - intros -> Hlt. unfold verdict.
    destruct (Z.ltb_spec 0 count); [reflexivity | lia].
  - intros Hu Heq. unfold verdict.
    assert (Z : count = 0) by lia. rewrite Z.
    destruct Hu as [-> | ->]; reflexivity.
  - intros e Hv m. apply entryReader_Read_latched. exact Hv.
Qed.

(** Once a view holds an error, every further [Read] returns it. *)
Lemma readSeq_latched (ns : list nat) (er : entryReader) (e : error) :
  er_err er = Some e ->
  readSeq ns er = Some (map (fun _ => ([], Some e)) ns, er).
Proof.
  intros H. induction ns as [|n ns IH]; [reflexivity|].
  cbn [readSeq map]. rewrite (entryReader_Read_latched _ _ _ H), IH.
  reflexivity.
Qed.

Lemma entryReader_Read_pulled (src : list byte) (er er' : entryReader)
    (n : nat) (bs : list byte) (v : option error) :
  pulled src er -> entryReader_Read er n = Some (bs, v, er') ->
  pulled src er' /\ er_adler er' = er_adler er.
Proof.
  intros [k Hk]. unfold entryReader_Read.
  destruct (er_err er).
  - intros [= <- <- <-]. split; [exists k; exact Hk | reflexivity].
  - destruct (clip (er_count er) n) as [n'|]; [|discriminate].
    destruct (readUnder er n') as [[[[bs0 err] ar] d] count] eqn:U.
    intros E. injection E as <- <- <-. cbn [er_ar er_adler].
    split; [|reflexivity].
    unfold readUnder in U. destruct n' as [|j].
    + injection U as <- <- <- <- <-. exists k. exact Hk.
    + destruct (flate_Read (er_r er) (ar_r (er_ar er)) (Datatypes.S j))
        as [[bs1 e1] [d1 k1]].
      injection U as <- <- <- <- <-.
      exists (k + k1)%nat. rewrite Hk. apply adlerReader_pull_pull.
Qed.

Lemma readSeq_pulled (src : list byte) (ns : list nat) :
  forall (er er' : entryReader) rs,
  pulled src er -> readSeq ns er = Some (rs, er') ->
  pulled src er' /\ er_adler er' = er_adler er.
Proof.
  induction ns as [|n ns IH]; intros er er' rs P.
  - cbn. intros [= <- <-]. auto.
  - cbn [readSeq].
    destruct (entryReader_Read er n) as [[[bs v] er1]|] eqn:R; [|discriminate].
    destruct (readSeq ns er1) as [[rs1 er2]|] eqn:R2; [|discriminate].
    intros E. injection E as <- <-.
    destruct (entryReader_Read_pulled _ _ _ _ _ _ P R) as [P1 A1].
    destruct (IH _ _ _ P1 R2) as [P2 A2].
    split; [exact P2 | congruence].
Qed.

(** C4. A view opened on entry [e] and read by any sequence of [Read]
    calls: its digest is the Adler-32 of the compressed bytes taken from
    the entry's offset on, and [Close] returns ErrInvalidChecksum exactly
    when that digest differs from the checksum of the entry's record, and
    no error otherwise.  Opening the view leaves the entry list and the
    bytes of the Reader as they were, moving only its cursor, and a view
    opened afterwards for any entry is the one a fresh Reader would give. *)
Theorem entryReader_Close_scoped
    (br br0 : Reader) (e : Entry) (er0 er : entryReader)
    (ns : list nat) (rs : list (list byte * option error)) :
  EntryReader br e = Ok (er0, br0) ->
  readSeq ns er0 = Some (rs, er) ->
  (exists k,
      adlerReader_Adler (er_ar er) =
      adler32 (firstn k (skipn (Z.to_nat (int64 (index e)))
                           (f_data (br_r br))))) /\
  (entryReader_Close er = Some ErrInvalidChecksum <->
   adlerReader_Adler (er_ar er) <> adler e) /\
  (entryReader_Close er = None <-> adlerReader_Adler (er_ar er) = adler e) /\
  Entries br0 = Entries br /\
  f_data (br_r br0) = f_data (br_r br) /\
  (forall e' : Entry,
      match EntryReader br0 e', EntryReader br e' with
      | Ok (v0, _), Ok (v, _) => v0 = v
      | Err a, Err b => a = b
      | _, _ => False
      end).
Proof.
  unfold EntryReader, File_Seek. intros O R.
  destruct (Z.ltb_spec (int64 (index e)) 0); [discriminate|].
  injection O as <- <-.
  set (src := skipn (Z.to_nat (int64 (index e))) (f_data (br_r br))).
  assert (P : pulled src
                (mkEntryReader (newAdlerReader src) flate_NewReader
                   (int64 (Size e)) (adler e) None)).
  { exists 0%nat. unfold adlerReader_pull, newAdlerReader. cbn.
    reflexivity. }
  unfold File_rest in R. cbn [f_pos f_data] in R. fold src in R.
  destruct (readSeq_pulled _ _ _ _ _ P R) as [[k Hk] A].
  cbn [er_adler] in A.
  assert (D : adlerReader_Adler (er_ar er) = adler32 (firstn k src)).
  { rewrite Hk, adlerReader_pull_new. reflexivity. }
  split; [exists k; exact D|].
  unfold entryReader_Close. rewrite A.
  destruct (Z.eqb_spec (adler e) (adlerReader_Adler (er_ar er))) as [Q|Q];
    cbn [negb].
  - repeat split; try congruence; try discriminate.
    + intros e'. cbn [br_r f_data].
      destruct (Z.ltb_spec (int64 (index e')) 0); reflexivity.
  - repeat split; try congruence; try discriminate.
    + intros e'. cbn [br_r f_data].
      destruct (Z.ltb_spec (int64 (index e')) 0); reflexivity.
Qed.

End EntryReaderProps.

(** ** Opening a container *)

Section NewReaderProps.

Context {flate : Inflater}.








(** The loop taken in two parts. *)
Lemma readEntries_split (k m : nat) :
  forall (i count : Z) (s : stream),
  readEntries (k + m) i count s =
  match readEntries k i count s with
  | Some (Ok (xs, s')) =>
      match readEntries m (i + Z.of_nat k) count s' with
      | Some (Ok (ys, s'')) => Some (Ok (xs ++ ys, s''))
      | other => other
      end
  | other => other
  end.
Proof.
  induction k as [|k IH]; intros i count s.
  - cbn [Nat.add readEntries app]. rewrite Z.add_0_r.
    destruct (readEntries m i count s) as [[[ys s'']|]|]; reflexivity.
  - cbn [Nat.add readEntries].
    destruct (readEntry (i =? uint32 (count - 1)) s) as [[[x s1]|e]|];
      try reflexivity.
    rewrite IH.
    replace (i + 1 + Z.of_nat k) with (i + Z.of_nat (S k)) by lia.
    destruct (readEntries k (i + 1) count s1) as [[[xs s2]|e]|];
      try reflexivity.
    destruct (readEntries m (i + Z.of_nat (S k)) count s2)
      as [[[ys s3]|e]|]; reflexivity.
Qed.

Lemma decodeFooter_range (footer : list byte) (table adl count : Z) :
  decodeFooter footer = Some (table, adl, count) ->
  0 <= table < 2 ^ 64 /\ 0 <= adl < 2 ^ 32 /\ 0 <= count < 2 ^ 32.
Proof.
  unfold decodeFooter, rBuf_Uint64, rBuf_Uint32.
  destruct (rBuf_get 8 footer) as [[a r1]|] eqn:E1; [|discriminate].
  destruct (rBuf_get 4 r1) as [[b r2]|] eqn:E2; [|discriminate].
  destruct (rBuf_get 4 r2) as [[c r3]|] eqn:E3; [|discriminate].
  intros E. injection E as <- <- <-.
  apply rBuf_get_inv in E1, E2, E3.
  cbn in *. lia.
Qed.

Lemma readFooter_inv (r r2 : File) (table adl count : Z) :
  readFooter r = Some (Ok (table, adl, count, r2)) ->
  f_data r2 = f_data r /\ f_pos r2 = int64 table /\ int64 table = table /\
  0 <= count < 2 ^ 32.
Proof.
  unfold readFooter, File_Seek.
  destruct (Z.ltb_spec (len (f_data r) + - Z.of_nat footerSize) 0);
    [discriminate|].
  match goal with
  | |- context [File_Read ?f ?n] =>
      assert (D : f_data (snd (File_Read f n)) = f_data r);
      [ unfold File_Read; cbn [f_data f_pos footerSize];
        destruct (skipn _ _); reflexivity
      | destruct (File_Read f n) as [[bs err] r1] ]
  end.
  cbn [snd] in D.
  destruct err as [[]|]; try discriminate.
  destruct (decodeFooter (fill footerSize bs)) as [[[t a] c]|] eqn:F;
    [|discriminate].
  destruct (Z.ltb_spec (int64 t) 0); [discriminate|].
  intros E. injection E as <- <- <- <-.
  apply decodeFooter_range in F. cbn [f_data f_pos].
  repeat split; try tauto; try lia.
  apply int64_of_uint64; lia.
Qed.


(** C6. The table loop of [NewReader] has decoded [k] records and comes to
    record [k] of [count].  If the read of its 32 fixed bytes returns
    io.EOF, [NewReader] fails with ErrUnexpectedEOF, whichever record it
    is.  If the read of its name returns io.EOF, [NewReader] fails with
    ErrUnexpectedEOF when the record is not the last one; when it is the
    last one the record is accepted and the outcome of [NewReader] is that
    of the table checksum. *)
Theorem table_truncation
    (r r1 r2 : File) (table adl count : Z) (k : nat)
    (xs : list Entry) (s s1 : stream) (bs : list byte) (err : option error) :
  readHeader r = Ok r1 ->
  readFooter r1 = Some (Ok (table, adl, count, r2)) ->
  Z.of_nat k < count ->
  readEntries k 0 count (newAdlerReader (File_rest r2), flate_NewReader) =
    Some (Ok (xs, s)) ->
  stream_Read s entrySize = (bs, err, s1) ->
  (err = Some EOF -> NewReader r = Some (Err ErrUnexpectedEOF)) /\
  (forall (x : Entry) (nlen : Z) (nb : list byte) (s2 : stream),
      err = None ->
      decodeEntry (fill entrySize bs) = Some (x, nlen) ->
      stream_Read s1 (Z.to_nat nlen) = (nb, Some EOF, s2) ->
      (Z.of_nat k <> count - 1 ->
       NewReader r = Some (Err ErrUnexpectedEOF)) /\
      (Z.of_nat k = count - 1 ->
       NewReader r =
       Some (if adlerReader_Adler (fst s2) =? adl
             then Ok (mkReader
                        (xs ++ [setName x (string_of_bytes
                                             (fill (Z.to_nat nlen) nb))])
                        r2)
             else Err ErrInvalidChecksum))).
Proof.
  intros H F K P R.
  destruct (readFooter_inv _ _ _ _ _ F) as (_ & _ & _ & C).
  set (m := (Z.to_nat count - S k)%nat).
  assert (Hc : Z.to_nat count = (k + (1 + m))%nat) by (unfold m; lia).
  assert (U : uint32 (count - 1) = count - 1)
    by (unfold uint32; apply Z.mod_small; lia).
  unfold NewReader. rewrite H, F, Hc.
  rewrite readEntries_split, P.
  rewrite readEntries_split.
  cbn [readEntries]. rewrite Z.add_0_l, U.
  unfold readEntry. rewrite R.
  split.
  - intros ->. reflexivity.
  - intros x nlen nb s2 -> D R2. rewrite D, R2.
    split.
    + intros N.
      destruct (Z.eqb_spec (Z.of_nat k) (count - 1)); [contradiction|].
      reflexivity.
    + intros E.
      destruct (Z.eqb_spec (Z.of_nat k) (count - 1)); [|contradiction].
      assert (m = 0%nat) by (unfold m; lia).
      rewrite H0. cbn [readEntries]. cbn [app].
      destruct s2 as [ar2 d2]. cbn [fst].
      destruct (adlerReader_Adler ar2 =? adl); reflexivity.
Qed.



End NewReaderProps.

(** ** The writer's latch *)

Section WriterProps.

Context {W : Type} {sink : IoWriter W} {flate : Deflater} {path : PathLib}.

Lemma latched_Some (bw : Writer W) (e : error) :
  bw_err bw = Some e -> e <> ErrNoValidEntry -> latched bw = Some e.
Proof.
  unfold latched. intros -> N. destruct e; try reflexivity. contradiction.
Qed.

Lemma latched_inv (bw : Writer W) (e : error) :
  latched bw = Some e -> bw_err bw = Some e /\ e <> ErrNoValidEntry.
Proof.
  unfold latched. destruct (bw_err bw) as [[]|]; intros [= <-];
    split; (reflexivity || discriminate).
Qed.

Lemma latched_None (bw : Writer W) :
  latched bw = None -> bw_err bw = None \/ bw_err bw = Some ErrNoValidEntry.
Proof.
  unfold latched. destruct (bw_err bw) as [[]|]; try discriminate; auto.
Qed.

(** A Writer whose latch holds an error: every call but [Create] on the
    initial ErrNoValidEntry returns it and changes nothing. *)
Lemma step_latched (o : op) (bw : Writer W) (e : error) :
  bw_err bw = Some e ->
  (e <> ErrNoValidEntry \/ forall name, o <> OpCreate name) ->
  step o bw = Some (bw, Some e).
Proof.
  intros H C. destruct o as [name| perm | p |]; cbn [step].
  - destruct C as [C|C]; [|now elim (C name)].
    unfold Create. now rewrite (latched_Some _ _ H C).
  - unfold SetPerms. now rewrite H.
  - unfold Write. now rewrite H.
  - unfold Close. now rewrite H.
Qed.

(** An error returned by a call is the error in the latch afterwards. *)
Lemma step_error_latch (o : op) (bw bw' : Writer W) (e : error) :
  step o bw = Some (bw', Some e) -> bw_err bw' = Some e.
Proof.
  destruct o as [name| perm | p |]; cbn [step].
  - unfold Create.
    destruct (latched bw) as [err|] eqn:L.
    + intros [= <- <-]. now apply latched_inv in L.
    + destruct (match bw_err bw with
                | Some _ => Some (bw, None)
                | None => finalizeEntry bw
                end) as [[bw1 [err|]]|]; try discriminate.
      * intros [= <- <-]. reflexivity.
      * destruct (negb (filepath_IsLocal name) || hasBackslash name);
          [|discriminate].
        intros [= <- <-]. reflexivity.
  - unfold SetPerms. destruct (bw_err bw) as [err|] eqn:E.
    + intros [= <- <-]. exact E.
    + destruct (set_last _ _); discriminate.
  - unfold Write. destruct (bw_err bw) as [err|] eqn:E.
    + intros [= <- <-]. exact E.
    + destruct (bw_curr bw) as [dw|]; [|discriminate].
      destruct (dataWriter_Write dw (bw_w bw) p) as [[dw' w'] [err|]];
        intros [= <- <-]. reflexivity.
  - unfold Close. destruct (bw_err bw) as [err|] eqn:E.
    + intros [= <- <-]. exact E.
    + destruct (writeTable bw) as [[bw1 [adl|err]]|]; try discriminate.
      * destruct (footerBytes _ _ _); [|discriminate].
        destruct (io_Write (bw_w bw1) l) as [w' [err|]];
          intros [= <- <-]. reflexivity.
      * intros [= <- <-]. reflexivity.
Qed.

Lemma Close_ok_latch (bw bw' : Writer W) :
  Close bw = Some (bw', None) -> bw_err bw' = Some ErrWriteAfterClose.
Proof.
  unfold Close. destruct (bw_err bw); [discriminate|].
  destruct (writeTable bw) as [[bw1 [adl|err]]|]; try discriminate.
  destruct (footerBytes _ _ _); [|discriminate].
  destruct (io_Write (bw_w bw1) l) as [w' [err|]]; intros [= <-].
  reflexivity.
Qed.

Lemma run_latched (ops : list op) (bw : Writer W) (e : error) :
  bw_err bw = Some e ->
  (e <> ErrNoValidEntry \/ forall name, ~ In (OpCreate name) ops) ->
  run ops bw = Some (bw, map (fun _ => Some e) ops).
Proof.
  intros H C. induction ops as [|o ops IH]; [reflexivity|].
  cbn [run map]. rewrite (step_latched o bw e H).
  - rewrite IH; [reflexivity|].
    destruct C as [C|C]; [left; exact C | right].
    intros name I. apply (C name). now right.
  - destruct C as [C|C]; [left; exact C | right].
    intros name ->. apply (C name). now left.
Qed.

(** C8, as the code has it.  An error returned by a Writer call is latched:
    when it is not ErrNoValidEntry, every later [Create], [SetPerms],
    [Write] and [Close] returns that same error and leaves the Writer and
    its sink as they are.  ErrNoValidEntry, which [SetPerms], [Write] and
    [Close] return before the first [Create], is returned again by these
    three without effect, and does not stop a later [Create].  After a
    [Close] that returned no error every call returns
    ErrWriteAfterClose. *)
Theorem writer_error_latch (o : op) (bw bw' : Writer W) (r : option error) :
  step o bw = Some (bw', r) ->
  (forall e, r = Some e ->
     bw_err bw' = Some e /\
     (e <> ErrNoValidEntry ->
      forall ops, run ops bw' = Some (bw', map (fun _ => Some e) ops)) /\
     (forall ops, (forall name, ~ In (OpCreate name) ops) ->
                  run ops bw' = Some (bw', map (fun _ => Some e) ops))) /\
  (o = OpClose -> r = None ->
   forall ops,
     run ops bw' = Some (bw', map (fun _ => Some ErrWriteAfterClose) ops)).
Proof.
  intros Hs. split.
  - intros e ->. pose proof (step_error_latch _ _ _ _ Hs) as L.
    split; [exact L|]. split.
    + intros N ops. apply run_latched; auto.
    + intros ops N. apply run_latched; auto.
  - intros -> ->. cbn [step] in Hs.
    intros ops. apply run_latched.
    + apply (Close_ok_latch bw). exact Hs.
    + left. discriminate.
Qed.

(** ** Entries and the first [Create] *)

Lemma set_last_app {A : Type} (f : A -> A) (l : list A) (x : A) :
  set_last f (l ++ [x]) = Some (l ++ [f x]).
Proof.
  induction l as [|y l IH]; [reflexivity|].
  cbn [app set_last]. rewrite IH.
  destruct (l ++ [x]) eqn:E; [destruct l; discriminate | reflexivity].
Qed.

Lemma set_last_inv {A : Type} (f : A -> A) (l l' : list A) :
  set_last f l = Some l' ->
  exists m x, l = m ++ [x] /\ l' = m ++ [f x].
Proof.
  intros H. destruct (exists_last (l := l)) as (m & x & ->).
  - intros ->. discriminate.
  - rewrite set_last_app in H. injection H as <-. eauto.
Qed.

Lemma set_last_None {A : Type} (f : A -> A) (l : list A) :
  set_last f l = None -> l = [].
Proof.
  intros H. destruct l as [|y l]; [reflexivity|].
  destruct (exists_last (l := y :: l)) as (m & x & E); [discriminate|].
  rewrite E, set_last_app in H. discriminate.
Qed.

Lemma set_last_names (f : Entry -> Entry) (l l' : list Entry) :
  (forall x, Name (f x) = Name x) ->
  set_last f l = Some l' -> map Name l' = map Name l.
Proof.
  intros N H. apply set_last_inv in H. destruct H as (m & x & -> & ->).
  rewrite !map_app. cbn [map]. now rewrite N.
Qed.

Lemma finalizeEntry_names (bw bw1 : Writer W) (r : option error) :
  finalizeEntry bw = Some (bw1, r) ->
  map Name (bw_entries bw1) = map Name (bw_entries bw) /\
  bw_err bw1 = bw_err bw.
Proof.
  unfold finalizeEntry. destruct (bw_curr bw) as [dw|]; [|discriminate].
  destruct (dataWriter_Close dw (bw_w bw)) as [[dw' w'] [err|]].
  - intros [= <- <-]. split; reflexivity.
  - destruct (set_last _ (bw_entries bw)) as [es|] eqn:E; [|discriminate].
    intros [= <- <-]. split; [|reflexivity].
    cbn [bw_entries]. eapply set_last_names; [|exact E]. reflexivity.
Qed.

(** C9, as the code has it.  A name for which [filepath.IsLocal] is false,
    or that holds a backslash, is never accepted by [Create]: the call
    returns an error, which is latched, and the names in the entry list
    are those from before.  On a Writer that has no error latched and
    whose open entry, if there is one, is flushed without error, the error
    is ErrPathIsNotSimple; from then on every call, [Close] too, returns
    it and writes nothing, so no table ever lists the name. *)
Theorem Create_rejects (name : string) (bw bw' : Writer W)
    (r : option error) :
  negb (filepath_IsLocal name) || hasBackslash name = true ->
  Create name bw = Some (bw', r) ->
  (exists e, r = Some e /\ bw_err bw' = Some e) /\
  map Name (bw_entries bw') = map Name (bw_entries bw) /\
  (bw_err bw = Some ErrNoValidEntry ->
   r = Some ErrPathIsNotSimple /\
   bw' = set_err bw (Some ErrPathIsNotSimple)) /\
  (forall bw1, bw_err bw = None -> finalizeEntry bw = Some (bw1, None) ->
   r = Some ErrPathIsNotSimple /\
   bw' = set_err bw1 (Some ErrPathIsNotSimple)) /\
  (r = Some ErrPathIsNotSimple ->
   forall ops,
     run ops bw' = Some (bw', map (fun _ => Some ErrPathIsNotSimple) ops)).
Proof.
  intros Bad C.
  assert (Core :
    (exists e, r = Some e /\ bw_err bw' = Some e) /\
    map Name (bw_entries bw') = map Name (bw_entries bw) /\
    (bw_err bw = Some ErrNoValidEntry ->
     r = Some ErrPathIsNotSimple /\
     bw' = set_err bw (Some ErrPathIsNotSimple)) /\
    (forall bw1, bw_err bw = None -> finalizeEntry bw = Some (bw1, None) ->
     r = Some ErrPathIsNotSimple /\
     bw' = set_err bw1 (Some ErrPathIsNotSimple))).
  { unfold Create in C.
    destruct (latched bw) as [err|] eqn:L.
    - apply latched_inv in L. destruct L as [L N].
      injection C as <- <-.
      repeat split; eauto; intros; congruence.
    - apply latched_None in L. destruct L as [L|L]; rewrite L in C.
      + destruct (finalizeEntry bw) as [[bw1 [err|]]|] eqn:F;
          try discriminate.
        * injection C as <- <-.
          destruct (finalizeEntry_names _ _ _ F) as [Nm _].
          repeat split; eauto; intros; congruence.
        * rewrite Bad in C. injection C as <- <-.
          destruct (finalizeEntry_names _ _ _ F) as [Nm _].
          repeat split; eauto; intros; congruence.
      + rewrite Bad in C. injection C as <- <-.
        repeat split; eauto; intros; congruence. }
  destruct Core as (E & Nm & A & B).
  split; [exact E|]. split; [exact Nm|]. split; [exact A|].
  split; [exact B|].
  intros -> ops. destruct E as (e & Ee & Eb). injection Ee as <-.
  apply run_latched; [exact Eb | left; discriminate].
Qed.

Lemma footerBytes_layout (table adl count : Z) :
  footerBytes table adl count =
  Some (le_split 8 table ++ le_split 4 adl ++ le_split 4 count).
Proof.
  unfold footerBytes, wBuf_Uint64, wBuf_Uint32, wBuf_of, make, footerSize.
  repeat (rewrite wBuf_put_fits by (cbn [repeat skipn length]; lia);
          cbn [repeat skipn]).
  unfold wBuf_backing. cbn [wb_done wb_rest].
  rewrite app_nil_r. cbn [app]. now rewrite <- !app_assoc.
Qed.

Lemma writeRecords_total (es : list Entry) :
  forall (dw : dataWriter) (w : W), exists r, writeRecords es dw w = Some r.
Proof.
  induction es as [|x es IH]; intros dw w; cbn [writeRecords]; [eauto|].
  rewrite encodeEntry_layout.
  destruct (dataWriter_Write dw w (recordLayout x)) as [[dw1 w1] [e1|]];
    [eauto|].
  destruct (dataWriter_Write dw1 w1 (bytes_of_string (Name x)))
    as [[dw2 w2] [e2|]]; [eauto|].
  apply IH.
Qed.

Lemma finalizeEntry_total (bw : Writer W) :
  bw_curr bw <> None -> bw_entries bw <> [] ->
  exists bw1 r, finalizeEntry bw = Some (bw1, r) /\
                (r = None -> bw_curr bw1 = None).
Proof.
  intros C E. unfold finalizeEntry.
  destruct (bw_curr bw) as [dw|]; [|contradiction].
  destruct (dataWriter_Close dw (bw_w bw)) as [[dw' w'] [err|]].
  - eexists _, _. split; [reflexivity | discriminate].
  - destruct (set_last _ (bw_entries bw)) as [es|] eqn:S.
    + eexists _, _. split; reflexivity.
    + apply set_last_None in S. contradiction.
Qed.

Lemma writeTable_names (bw bw1 : Writer W) (r : result Z) :
  writeTable bw = Some (bw1, r) ->
  map Name (bw_entries bw1) = map Name (bw_entries bw).
Proof.
  unfold writeTable.
  destruct (finalizeEntry bw) as [[b1 [err|]]|] eqn:F; try discriminate.
  - intros [= <- <-]. apply (finalizeEntry_names _ _ _ F).
  - destruct (writeRecords _ _ _) as [[[dw w1] [e1|]]|]; try discriminate.
    + intros [= <- <-]. apply (finalizeEntry_names _ _ _ F).
    + destruct (dataWriter_Close dw w1) as [[dw' w2] [e2|]];
        intros [= <- <-]; apply (finalizeEntry_names _ _ _ F).
Qed.

(** The names in the entry list after a call: those from before, and the
    new name after a [Create] that returned no error. *)
Lemma step_names (o : op) (bw bw' : Writer W) (r : option error) :
  step o bw = Some (bw', r) ->
  map Name (bw_entries bw') = map Name (bw_entries bw) \/
  exists name, o = OpCreate name /\ r = None /\
               map Name (bw_entries bw') = map Name (bw_entries bw) ++ [name].
Proof.
  destruct o as [name| perm | p |]; cbn [step].
  - unfold Create. destruct (latched bw) as [err|] eqn:L.
    + intros [= <- <-]. now left.
    + assert (F : forall b1 e1,
                match bw_err bw with
                | Some _ => Some (bw, None)
                | None => finalizeEntry bw
                end = Some (b1, e1) ->
                map Name (bw_entries b1) = map Name (bw_entries bw)).
      { intros b1 e1. destruct (bw_err bw).
        - intros [= <- <-]. reflexivity.
        - intros F. apply (finalizeEntry_names _ _ _ F). }
      destruct (match bw_err bw with
                | Some _ => Some (bw, None)
                | None => finalizeEntry bw
                end) as [[b1 [err|]]|]; try discriminate.
      * intros [= <- <-]. left. apply (F _ _ eq_refl).
      * destruct (negb (filepath_IsLocal name) || hasBackslash name).
        -- intros [= <- <-]. left. apply (F _ _ eq_refl).
        -- intros [= <- <-]. right. exists name. repeat split.
           cbn [bw_entries]. rewrite map_app, (F _ _ eq_refl). reflexivity.
  - unfold SetPerms. destruct (bw_err bw).
    + intros [= <- <-]. now left.
    + destruct (set_last _ (bw_entries bw)) as [es|] eqn:S; [|discriminate].
      intros [= <- <-]. left. cbn [bw_entries].
      eapply set_last_names; [|exact S]. reflexivity.
  - unfold Write. destruct (bw_err bw).
    + intros [= <- <-]. now left.
    + destruct (bw_curr bw) as [dw|]; [|discriminate].
      destruct (dataWriter_Write dw (bw_w bw) p) as [[dw' w'] [err|]];
        intros [= <- <-]; now left.
  - unfold Close. destruct (bw_err bw).
    + intros [= <- <-]. now left.
    + destruct (writeTable bw) as [[bw1 [adl|err]]|] eqn:T; try discriminate.
      * rewrite footerBytes_layout.
        destruct (io_Write (bw_w bw1) _) as [w' [err|]];
          intros [= <- <-]; left; apply (writeTable_names _ _ _ T).
      * intros [= <- <-]. left. apply (writeTable_names _ _ _ T).
Qed.

Lemma step_ready (o : op) (bw bw' : Writer W) (r : option error) :
  ready bw -> step o bw = Some (bw', r) -> ready bw'.
Proof.
  intros R. destruct o as [name| perm | p |]; cbn [step].
  - unfold Create. destruct (latched bw) as [err|] eqn:L.
    + intros [= <- <-]. exact R.
    + destruct (match bw_err bw with
                | Some _ => Some (bw, None)
                | None => finalizeEntry bw
                end) as [[b1 [err|]]|]; try discriminate.
      * intros [= <- <-]. intros H. discriminate.
      * destruct (negb (filepath_IsLocal name) || hasBackslash name);
          intros [= <- <-]; intros H; [discriminate|].
        cbn [bw_curr bw_entries]. split; [discriminate|].
        destruct (bw_entries b1); discriminate.
  - unfold SetPerms. destruct (bw_err bw) eqn:E.
    + intros [= <- <-]. exact R.
    + destruct (set_last _ (bw_entries bw)) as [es|] eqn:S; [|discriminate].
      intros [= <- <-]. intros _. cbn [bw_curr bw_entries].
      split; [apply (R E)|].
      apply set_last_inv in S. destruct S as (m & x & _ & ->).
      destruct m; discriminate.
  - unfold Write. destruct (bw_err bw) eqn:E.
    + intros [= <- <-]. exact R.
    + destruct (bw_curr bw) as [dw|]; [|discriminate].
      destruct (dataWriter_Write dw (bw_w bw) p) as [[dw' w'] [err|]];
        intros [= <- <-]; intros H; [discriminate|].
      cbn [bw_curr bw_entries]. split; [discriminate | apply (R E)].
  - intros C H. destruct r as [e|].
    + rewrite (step_error_latch OpClose _ _ _ C) in H. discriminate.
    + rewrite (Close_ok_latch _ _ C) in H. discriminate.
Qed.

(** On a ready Writer no call panics. *)
Lemma step_total (o : op) (bw : Writer W) :
  ready bw -> exists bw' r, step o bw = Some (bw', r).
Proof.
  intros R. destruct o as [name| perm | p |]; cbn [step].
  - unfold Create. destruct (latched bw) as [err|]; [eauto|].
    destruct (bw_err bw) eqn:E.
    + destruct (negb (filepath_IsLocal name) || hasBackslash name); eauto.
    + destruct (R E) as [C N].
      destruct (finalizeEntry_total bw C N) as (b1 & r & -> & _).
      destruct r; [eauto|].
      destruct (negb (filepath_IsLocal name) || hasBackslash name); eauto.
  - unfold SetPerms. destruct (bw_err bw) eqn:E; [eauto|].
    destruct (R E) as [C N].
    destruct (set_last _ (bw_entries bw)) as [es|] eqn:S; [eauto|].
    apply set_last_None in S. contradiction.
  - unfold Write. destruct (bw_err bw) eqn:E; [eauto|].
    destruct (R E) as [C N].
    destruct (bw_curr bw) as [dw|]; [|contradiction].
    destruct (dataWriter_Write dw (bw_w bw) p) as [[dw' w'] [err|]]; eauto.
  - unfold Close. destruct (bw_err bw) eqn:E; [eauto|].
    destruct (R E) as [C N].
    unfold writeTable.
    destruct (finalizeEntry_total bw C N) as (b1 & r & -> & _).
    destruct r; [eauto|].
    destruct (writeRecords_total (bw_entries b1) newDataWriter (bw_w b1))
      as [[[dw w1] e1] ->].
    destruct e1; [eauto|].
    destruct (dataWriter_Close dw w1) as [[dw' w2] [e2|]]; [eauto|].
    rewrite footerBytes_layout.
    destruct (io_Write _ _) as [w' [err|]]; eauto.
Qed.

Lemma step_entryless (w0 : W) (o : op) (bw bw' : Writer W)
    (r : option error) :
  entryless w0 bw -> step o bw = Some (bw', r) -> entryless w0 bw'.
Proof.
  intros E S N.
  assert (N0 : bw_entries bw = []).
  { destruct (step_names _ _ _ _ S) as [Q|(name & _ & _ & Q)];
      rewrite N in Q; cbn in Q.
    - destruct (bw_entries bw); [reflexivity | discriminate].
    - destruct (map Name (bw_entries bw)); discriminate. }
  destruct (E N0) as [Hw [He|He]].
  - destruct o as [name| perm | p |];
      try (rewrite (step_latched _ bw _ He) in S;
           [injection S as <- <-; auto | right; discriminate]).
    cbn [step] in S. unfold Create, latched in S. rewrite He in S.
    destruct (negb (filepath_IsLocal name) || hasBackslash name).
    + injection S as <- <-. cbn. auto.
    + injection S as <- <-. cbn [bw_entries] in N.
      destruct (bw_entries bw); discriminate.
  - rewrite (step_latched _ bw _ He) in S; [|left; discriminate].
    injection S as <- <-. auto.
Qed.

Lemma run_invariants (w0 : W) (ops : list op) :
  forall bw, ready bw -> entryless w0 bw ->
  exists bw' rs, run ops bw = Some (bw', rs) /\ ready bw' /\ entryless w0 bw'.
Proof.
  induction ops as [|o ops IH]; intros bw R E; cbn [run].
  - eauto.
  - destruct (step_total o bw R) as (b1 & r & S). rewrite S.
    destruct (IH b1 (step_ready _ _ _ _ R S) (step_entryless _ _ _ _ _ E S))
      as (b2 & rs & -> & R2 & E2).
    eauto.
Qed.

Lemma NewWriter_inv (w : W) (bw0 : Writer W) :
  NewWriter w = Ok bw0 ->
  io_Write w headerBytes = (bw_w bw0, None) /\
  bw_index bw0 = 4 /\ bw_entries bw0 = [] /\ bw_curr bw0 = None /\
  bw_err bw0 = Some ErrNoValidEntry.
Proof.
  unfold NewWriter. destruct (io_Write w headerBytes) as [w' [e|]];
    [discriminate|].
  intros [= <-]. cbn. repeat split.
Qed.

(** C10, as the code has it.  On a Writer on which [Create] has not been
    called, [SetPerms], [Write] and [Close] return ErrNoValidEntry and
    change nothing.  After any calls, while the entry list is empty the
    sink holds the header alone and these three calls return one same
    error and change nothing: ErrNoValidEntry, or ErrPathIsNotSimple once a
    [Create] has failed.  A [Close] that returns no error leaves a Writer
    with at least one entry, so that no container without entries is
    produced.  No sequence of calls panics. *)
Theorem entryless_writer (w : W) (bw0 : Writer W) :
  NewWriter w = Ok bw0 ->
  (forall ops, (forall name, ~ In (OpCreate name) ops) ->
     run ops bw0 = Some (bw0, map (fun _ => Some ErrNoValidEntry) ops)) /\
  (forall ops, exists bw rs,
     run ops bw0 = Some (bw, rs) /\
     (bw_entries bw = [] ->
      bw_w bw = bw_w bw0 /\
      exists e, (e = ErrNoValidEntry \/ e = ErrPathIsNotSimple) /\
                forall o, (forall name, o <> OpCreate name) ->
                          step o bw = Some (bw, Some e)) /\
     (forall bw', Close bw = Some (bw', None) -> bw_entries bw' <> [])).
Proof.
  intros N. destruct (NewWriter_inv _ _ N) as (_ & _ & E0 & C0 & R0).
  split.
  - intros ops NC. apply run_latched; [exact R0 | right; exact NC].
  - intros ops.
    assert (Rd : ready bw0) by (intros H; rewrite R0 in H; discriminate).
    assert (El : entryless (bw_w bw0) bw0) by (intros _; auto).
    destruct (run_invariants (bw_w bw0) ops bw0 Rd El)
      as (bw & rs & Hr & R & E).
    exists bw, rs. split; [exact Hr|]. split.
    + intros Hn. destruct (E Hn) as [Hw He]. split; [exact Hw|].
      destruct He as [He|He].
      * exists ErrNoValidEntry. split; [now left|].
        intros o No. apply step_latched; [exact He | right; exact No].
      * exists ErrPathIsNotSimple. split; [now right|].
        intros o No. apply step_latched; [exact He | left; discriminate].
    + intros bw' C Hn.
      pose proof (step_names OpClose _ _ _ C) as [Q|(name & D & _)];
        [|discriminate].
      rewrite Hn in Q. cbn in Q.
      assert (bw_err bw = None).
      { unfold Close in C. destruct (bw_err bw); [discriminate | reflexivity]. }
      destruct (R H) as [_ Ne].
      destruct (bw_entries bw); [contradiction | discriminate].
Qed.

End WriterProps.

(** ** The layout of the container *)

Section Layout.

Context {flate : Deflater} {path : PathLib}.

Lemma uint64_add_l (a b : Z) : uint64 (uint64 a + b) = uint64 (a + b).
Proof. unfold uint64. apply Zplus_mod_idemp_l. Qed.

Lemma uint64_add_r (a b : Z) : uint64 (a + uint64 b) = uint64 (a + b).
Proof. unfold uint64. apply Zplus_mod_idemp_r. Qed.

Lemma uint64_idem (a : Z) : uint64 (uint64 a) = uint64 a.
Proof. unfold uint64. apply Z.mod_mod. discriminate. Qed.

(** Over a buffer no write fails; the counter and the digest of a
    [dataWriter] follow the bytes that reach the buffer. *)
Lemma emit_buffer (dw : dataWriter) (w : Buffer) (out cur : list byte) :
  compCounter dw = uint64 (len cur) ->
  dw_adler dw = adler32 cur ->
  exists dw',
    emit dw w out = (dw', w ++ out, None) /\
    compCounter dw' = uint64 (len (cur ++ out)) /\
    dw_adler dw' = adler32 (cur ++ out) /\
    deflate dw' = deflate dw /\
    uncompCounter dw' = uncompCounter dw.
Proof.
  intros C A. destruct out as [|b out].
  - exists dw. cbn [emit]. rewrite !app_nil_r. auto.
  - eexists. cbn [emit]. unfold compCounter_Write, adlerWriter_Write.
    cbn [io_Write Buffer_Writer].
    unfold io_Write, Buffer_Writer.
    split; [reflexivity|]. cbn [compCounter dw_adler deflate uncompCounter].
    rewrite C, A, len_app, uint64_add_l.
    unfold adler32. rewrite adler32_update_app. auto.
Qed.

Lemma dataWriter_Write_buffer (dw : dataWriter) (w : Buffer)
    (p cur : list byte) :
  compCounter dw = uint64 (len cur) ->
  dw_adler dw = adler32 cur ->
  exists dw',
    dataWriter_Write dw w p =
      (dw', w ++ snd (flate_Write (deflate dw) p), None) /\
    compCounter dw' = uint64 (len (cur ++ snd (flate_Write (deflate dw) p))) /\
    dw_adler dw' = adler32 (cur ++ snd (flate_Write (deflate dw) p)) /\
    deflate dw' = fst (flate_Write (deflate dw) p).
Proof.
  intros C A. unfold dataWriter_Write.
  destruct (flate_Write (deflate dw) p) as [c out]. cbn [fst snd].
  destruct (emit_buffer
              (mkDataWriter (uncompCounter dw) (compCounter dw)
                 (dw_adler dw) c) w out cur C A)
    as (dw1 & E & C1 & A1 & D1 & _).
  rewrite E. eexists. split; [reflexivity|].
  cbn [compCounter dw_adler deflate]. auto.
Qed.

Lemma dataWriter_Close_buffer (dw : dataWriter) (w : Buffer)
    (cur : list byte) :
  compCounter dw = uint64 (len cur) ->
  dw_adler dw = adler32 cur ->
  exists dw',
    dataWriter_Close dw w = (dw', w ++ flate_Close (deflate dw), None) /\
    compCounter dw' = uint64 (len (cur ++ flate_Close (deflate dw))) /\
    dw_adler dw' = adler32 (cur ++ flate_Close (deflate dw)).
Proof.
  intros C A. unfold dataWriter_Close.
  destruct (emit_buffer dw w (flate_Close (deflate dw)) cur C A)
    as (dw1 & E & C1 & A1 & _).
  eauto.
Qed.

Lemma writeRecords_buffer (es : list Entry) :
  forall (dw : dataWriter) (w : Buffer) (cur : list byte),
  compCounter dw = uint64 (len cur) ->
  dw_adler dw = adler32 cur ->
  exists dw' X,
    writeRecords es dw w = Some (dw', w ++ X, None) /\
    compCounter dw' = uint64 (len (cur ++ X)) /\
    dw_adler dw' = adler32 (cur ++ X) /\
    X ++ flate_Close (deflate dw') = deflateChunks (deflate dw) (tableChunks es).
Proof.
  induction es as [|x es IH]; intros dw w cur C A.
  - exists dw, []. cbn [writeRecords tableChunks flat_map deflateChunks].
    rewrite !app_nil_r. auto.
  - cbn [writeRecords]. rewrite encodeEntry_layout.
    destruct (dataWriter_Write_buffer dw w (recordLayout x) cur C A)
      as (dw1 & E1 & C1 & A1 & D1).
    rewrite E1.
    destruct (dataWriter_Write_buffer dw1
                (w ++ snd (flate_Write (deflate dw) (recordLayout x)))
                (bytes_of_string (Name x)) _ C1 A1)
      as (dw2 & E2 & C2 & A2 & D2).
    rewrite E2.
    destruct (IH dw2
                ((w ++ snd (flate_Write (deflate dw) (recordLayout x))) ++
                 snd (flate_Write (deflate dw1) (bytes_of_string (Name x))))
                _ C2 A2) as (dw3 & X & E3 & C3 & A3 & T3).
    rewrite E3.
    exists dw3,
      (snd (flate_Write (deflate dw) (recordLayout x)) ++
       snd (flate_Write (deflate dw1) (bytes_of_string (Name x))) ++ X).
    split; [rewrite <- !app_assoc; reflexivity|].
    split; [rewrite C3, <- !app_assoc; reflexivity|].
    split; [rewrite A3, <- !app_assoc; reflexivity|].
    cbn [tableChunks flat_map app deflateChunks].
    fold (tableChunks es).
    rewrite <- !app_assoc, T3, D2, D1.
    destruct (flate_Write (deflate dw) (recordLayout x)) as [c1 o1].
    cbn [fst snd].
    destruct (flate_Write c1 (bytes_of_string (Name x))) as [c2 o2].
    cbn [fst snd]. reflexivity.
Qed.

Lemma placed_app (done : list Entry) :
  forall (base : Z) (ss : list (list byte)) (e : Entry) (s : list byte),
  placed base done ss ->
  index e = uint64 (base + len (concat ss)) ->
  sizeCompressed e = uint64 (len s) ->
  adler e = adler32 s ->
  placed base (done ++ [e]) (ss ++ [s]).
Proof.
  induction done as [|d done IH]; intros base ss e s P I C A.
  - destruct ss; [|contradiction]. cbn in *.
    rewrite Z.add_0_r in I. auto.
  - destruct ss as [|s0 ss]; [contradiction|].
    cbn [placed app] in *. destruct P as (P1 & P2 & P3 & P4).
    repeat split; try assumption.
    apply IH; try assumption.
    rewrite I. cbn [concat]. rewrite len_app. f_equal. lia.
Qed.

Lemma placed_length (es : list Entry) :
  forall base ss, placed base es ss -> length es = length ss.
Proof.
  induction es as [|e es IH]; intros base [|s ss] P; try contradiction;
    [reflexivity|].
  cbn. f_equal. apply (IH (base + len s)). apply P.
Qed.

(** Ending the open entry. *)
Lemma finalizeEntry_live (bw : Writer Buffer) (ss : list (list byte))
    (cur : list byte) :
  live bw ss cur ->
  exists bw1 s,
    finalizeEntry bw = Some (bw1, None) /\
    settled bw1 (ss ++ [s]) /\
    bw_err bw1 = bw_err bw /\ bw_curr bw1 = None.
Proof.
  intros (done & e & dw & Hw & Hc & Hp & Hi & He & Hx & Hd & Hn & Ha).
  unfold finalizeEntry. rewrite Hd.
  destruct (dataWriter_Close_buffer dw (bw_w bw) cur Hn Ha)
    as (dw' & E & C & A).
  rewrite E, He, set_last_app.
  eexists _, (cur ++ flate_Close (deflate dw)).
  split; [reflexivity|].
  split; [|split; reflexivity].
  unfold settled. cbn [bw_w bw_entries bw_index].
  split; [|split; [|split; [|split]]].
  - rewrite Hw, concat_app. cbn [concat]. rewrite app_nil_r.
    now rewrite <- !app_assoc.
  - apply Forall_app. split; [exact Hc|].
    constructor; [|constructor]. exists cur, (deflate dw). reflexivity.
  - apply placed_app; cbn [index sizeCompressed adler]; try assumption.
    + rewrite Hx, Hi. reflexivity.
  - unfold CompressedCount. rewrite C, Hi, uint64_add_l, uint64_add_r.
    rewrite concat_app. cbn [concat]. rewrite app_nil_r, !len_app.
    apply (f_equal uint64). lia.
  - destruct done; discriminate.
Qed.

Lemma Forall_closed_nil : Forall closedStream [].
Proof. constructor. Qed.

Lemma layout_latched (bw : Writer Buffer) (e : error) :
  bw_err bw = Some e -> e <> ErrNoValidEntry -> layout bw.
Proof.
  intros H N. split; intros H'; rewrite H in H'; [|discriminate].
  injection H' as ->. contradiction.
Qed.

Lemma Write_live (bw : Writer Buffer) (p : list byte)
    (ss : list (list byte)) (cur : list byte) :
  bw_err bw = None -> live bw ss cur ->
  exists bw' cur',
    Write p bw = Some (bw', (len p, None)) /\
    bw_err bw' = None /\ live bw' ss cur'.
Proof.
  intros E (done & e & dw & Hw & Hc & Hp & Hi & He & Hx & Hd & Hn & Ha).
  unfold Write. rewrite E, Hd.
  destruct (dataWriter_Write_buffer dw (bw_w bw) p cur Hn Ha)
    as (dw' & Ew & Cw & Aw & _).
  rewrite Ew.
  eexists _, (cur ++ snd (flate_Write (deflate dw) p)).
  split; [reflexivity|]. split; [reflexivity|].
  exists done, e, dw'. cbn [bw_w bw_index bw_entries bw_curr].
  rewrite Hw, <- !app_assoc. repeat split; assumption.
Qed.

Lemma Close_live (bw : Writer Buffer) (ss : list (list byte))
    (cur : list byte) :
  bw_err bw = None -> live bw ss cur ->
  exists bw1 s bw',
    finalizeEntry bw = Some (bw1, None) /\
    settled bw1 (ss ++ [s]) /\
    Close bw = Some (bw', None) /\
    bw_entries bw' = bw_entries bw1 /\
    bw_w bw' =
      bw_w bw1 ++ tableStream (bw_entries bw1) ++
      le_split 8 (bw_index bw1) ++
      le_split 4 (adler32 (tableStream (bw_entries bw1))) ++
      le_split 4 (uint32 (len (bw_entries bw1))).
Proof.
  intros E Lv.
  destruct (finalizeEntry_live _ _ _ Lv) as (b1 & s & F & St & Eb & Cb).
  exists b1, s.
  unfold Close, writeTable. rewrite E, F.
  destruct (writeRecords_buffer (bw_entries b1) newDataWriter (bw_w b1) []
              eq_refl eq_refl) as (dw' & X & Wr & Cw & Aw & T).
  rewrite Wr.
  destruct (dataWriter_Close_buffer dw' (bw_w b1 ++ X) _ Cw Aw)
    as (dw2 & Cl & _ & A2).
  rewrite Cl. rewrite footerBytes_layout.
  unfold io_Write, Buffer_Writer.
  eexists. split; [reflexivity|]. split; [exact St|].
  split; [reflexivity|].
  cbn [set_err set_w bw_entries bw_w]. split; [reflexivity|].
  unfold dataWriter_Adler. rewrite A2. cbn [app].
  change (deflate newDataWriter) with flate_NewWriter in T.
  unfold tableStream. rewrite <- T, <- !app_assoc. reflexivity.
Qed.

Lemma step_layout (o : op) (bw bw' : Writer Buffer) (r : option error) :
  layout bw -> step o bw = Some (bw', r) -> layout bw'.
Proof.
  intros L S.
  destruct (bw_err bw) as [e|] eqn:E.
  - destruct (error_eqb e ErrNoValidEntry) eqn:Q.
    + assert (e = ErrNoValidEntry) by (destruct e; try discriminate; reflexivity).
      subst e.
      destruct o as [name| perm | p |];
        try (rewrite (step_latched _ bw _ E) in S;
             [injection S as <- <-; exact L | right; discriminate]).
      cbn [step] in S. unfold Create, latched in S. rewrite E in S.
      destruct L as [L0 _]. destruct (L0 E) as (Hw & Hi & Hn).
      destruct (negb (filepath_IsLocal name) || hasBackslash name);
        injection S as <- <-.
      * apply (layout_latched _ ErrPathIsNotSimple); [reflexivity|discriminate].
      * split; [discriminate|]. intros _.
        exists [], [], [], (mkEntry name 0 420 0 (bw_index bw) 0),
          newDataWriter.
        cbn [bw_w bw_index bw_entries bw_curr concat app index compCounter
               dw_adler newDataWriter placed].
        rewrite Hw, Hi, Hn, app_nil_r.
        repeat split. constructor.
    + assert (N : e <> ErrNoValidEntry) by (intros ->; discriminate).
      rewrite (step_latched _ bw _ E) in S; [|left; exact N].
      injection S as <- <-. exact L.
  - destruct L as [_ L1]. destruct (L1 E) as (ss & cur & Lv).
    destruct o as [name| perm | p |]; cbn [step] in S.
    + unfold Create, latched in S. rewrite E in S.
      destruct (finalizeEntry_live _ _ _ Lv) as (b1 & s & F & St & Eb & Cb).
      rewrite F in S.
      destruct (negb (filepath_IsLocal name) || hasBackslash name);
        injection S as <- <-.
      * apply (layout_latched _ ErrPathIsNotSimple); [reflexivity|discriminate].
      * split; [discriminate|]. intros _.
        destruct St as (Hw & Hc & Hp & Hi & Hn).
        exists (ss ++ [s]), [], (bw_entries b1),
          (mkEntry name 0 420 0 (bw_index b1) 0), newDataWriter.
        cbn [bw_w bw_index bw_entries bw_curr index compCounter dw_adler
               newDataWriter].
        rewrite app_nil_r. repeat split; assumption.
    + unfold SetPerms in S. rewrite E in S.
      destruct Lv as (done & e & dw & Hw & Hc & Hp & Hi & He & Hx & Hd & Hn & Ha).
      rewrite He, set_last_app in S. injection S as <- <-.
      split; [discriminate|]. intros _.
      exists ss, cur, done,
        (mkEntry (Name e) (Size e) perm (sizeCompressed e) (index e) (adler e)),
        dw.
      cbn [bw_w bw_index bw_entries bw_curr index].
      repeat split; assumption.
    + destruct (Write_live bw p ss cur E Lv) as (b1 & cur' & Wr & E1 & Lv1).
      rewrite Wr in S. injection S as <- <-.
      split; [rewrite E1; discriminate|]. intros _. eauto.
    + destruct (Close_live bw ss cur E Lv)
        as (b1 & s & b2 & _ & _ & Cl & _).
      rewrite Cl in S. injection S as <- <-.
      apply (layout_latched _ ErrWriteAfterClose);
        [apply (Close_ok_latch bw); exact Cl | discriminate].
Qed.

Lemma run_layout (ops : list op) :
  forall (bw bw' : Writer Buffer) rs,
  layout bw -> run ops bw = Some (bw', rs) -> layout bw'.
Proof.
  induction ops as [|o ops IH]; intros bw bw' rs L; cbn [run].
  - intros [= <- <-]. exact L.
  - destruct (step o bw) as [[b1 r]|] eqn:S; [|discriminate].
    destruct (run ops b1) as [[b2 rs']|] eqn:R; [|discriminate].
    intros [= <- <-]. apply (IH _ _ _ (step_layout _ _ _ _ L S) R).
Qed.

Lemma Create_ok_names (name : string) (bw bw' : Writer Buffer) :
  Create name bw = Some (bw', None) ->
  map Name (bw_entries bw') = map Name (bw_entries bw) ++ [name].
Proof.
  intros C.
  destruct (step_names (OpCreate name) _ _ _ C) as [Q|(n & O & _ & Q)].
  - exfalso. unfold Create in C.
    destruct (latched bw); [discriminate|].
    destruct (match bw_err bw with
              | Some _ => Some (bw, None)
              | None => finalizeEntry bw
              end) as [[b1 [err|]]|] eqn:F; try discriminate.
    assert (Nm : map Name (bw_entries b1) = map Name (bw_entries bw)).
    { destruct (bw_err bw).
      - injection F as <-. reflexivity.
      - apply (finalizeEntry_names _ _ _ F). }
    destruct (negb (filepath_IsLocal name) || hasBackslash name);
      [discriminate|].
    injection C as <-. cbn [bw_entries] in Q.
    rewrite map_app, Nm in Q.
    apply (f_equal (@length string)) in Q.
    rewrite length_app in Q. cbn in Q. lia.
  - injection O as <-. exact Q.
Qed.

Lemma run_created (ops : list op) :
  forall (bw bw' : Writer Buffer) rs,
  run ops bw = Some (bw', rs) ->
  map Name (bw_entries bw') = map Name (bw_entries bw) ++ created ops rs.
Proof.
  induction ops as [|o ops IH]; intros bw bw' rs; cbn [run].
  - intros [= <- <-]. cbn. now rewrite app_nil_r.
  - destruct (step o bw) as [[b1 r]|] eqn:S; [|discriminate].
    destruct (run ops b1) as [[b2 rs']|] eqn:R; [|discriminate].
    intros [= <- <-]. rewrite (IH _ _ _ R).
    destruct o as [name| perm | p |]; cbn [created].
    + destruct r as [e|].
      * destruct (step_names _ _ _ _ S) as [Q|(n & _ & D & _)];
          [now rewrite Q | discriminate].
      * cbn [step] in S. rewrite (Create_ok_names _ _ _ S).
        now rewrite <- app_assoc.
    + destruct (step_names _ _ _ _ S) as [Q|(n & D & _)];
        [|discriminate]. rewrite Q. now destruct r.
    + destruct (step_names _ _ _ _ S) as [Q|(n & D & _)];
        [|discriminate]. rewrite Q. now destruct r.
    + destruct (step_names _ _ _ _ S) as [Q|(n & D & _)];
        [|discriminate]. rewrite Q. now destruct r.
Qed.

Lemma placed_laidOut (es : list Entry) :
  forall (base : Z) (ss : list (list byte)),
  0 <= base ->
  placed base es ss ->
  Forall (fun s => s <> []) ss ->
  base + len (concat ss) < 2 ^ 64 ->
  laidOut base es ss.
Proof.
  induction es as [|e es IH]; intros base [|s ss] B P N L;
    try contradiction; [exact I|].
  cbn [placed laidOut concat] in *. rewrite len_app in L.
  destruct P as (P1 & P2 & P3 & P4).
  inversion N as [|? ? Ns Nss]; subst.
  pose proof (len_nonneg s). pose proof (len_nonneg (concat ss)).
  assert (0 < len s).
  { destruct s; [contradiction|]. unfold len. cbn [length]. lia. }
  rewrite uint64_small in P1, P2 by lia.
  repeat split; try assumption.
  apply IH; try assumption; lia.
Qed.

Lemma laidOut_sorted (es : list Entry) :
  forall (base : Z) (ss : list (list byte)),
  laidOut base es ss ->
  StronglySorted Z.lt (map index es) /\ Forall (fun i => base <= i) (map index es).
Proof.
  induction es as [|e es IH]; intros base [|s ss] L; try contradiction.
  - split; constructor.
  - cbn [laidOut map] in *. destruct L as (L1 & L2 & L3 & L4 & L5).
    destruct (IH _ _ L5) as [S F]. split.
    + constructor; [exact S|].
      eapply Forall_impl; [|exact F]. cbn. intros i Hi. lia.
    + constructor; [lia|].
      eapply Forall_impl; [|exact F]. cbn. intros i Hi. lia.
Qed.

Lemma laidOut_positions (es : list Entry) :
  forall (base : Z) (ss : list (list byte)) (pre rest : list byte),
  len pre = base ->
  laidOut base es ss ->
  forall e s, In (e, s) (combine es ss) ->
  firstn (Z.to_nat (sizeCompressed e))
    (skipn (Z.to_nat (index e)) (pre ++ concat ss ++ rest)) = s.
Proof.
  induction es as [|x es IH]; intros base [|t ss] pre rest B L e s H;
    try contradiction.
  cbn [laidOut combine concat] in *.
  destruct L as (L1 & L2 & L3 & L4 & L5).
  destruct H as [H|H].
  - injection H as <- <-. rewrite L1, L2, <- B. unfold len.
    rewrite !Nat2Z.id.
    rewrite skipn_app, skipn_all, Nat.sub_diag. cbn [skipn app].
    rewrite <- app_assoc, firstn_app, firstn_all, Nat.sub_diag.
    cbn [firstn]. now rewrite app_nil_r.
  - rewrite <- app_assoc.
    replace (pre ++ t ++ concat ss ++ rest)
      with ((pre ++ t) ++ concat ss ++ rest) by now rewrite <- app_assoc.
    apply (IH (base + len t)); try assumption.
    rewrite len_app. lia.
Qed.

Lemma laidOut_last (es : list Entry) :
  forall (base : Z) (ss : list (list byte)) (e : Entry),
  laidOut base (es ++ [e]) ss ->
  base + len (concat ss) = index e + sizeCompressed e.
Proof.
  induction es as [|x es IH]; intros base [|t ss] e L; try contradiction.
  - cbn [app laidOut] in L. destruct L as (L1 & L2 & _ & _ & L5).
    destruct ss; [|contradiction].
    cbn [concat]. rewrite app_nil_r. lia.
  - cbn [app laidOut] in L. destruct L as (_ & _ & _ & _ & L5).
    cbn [concat]. rewrite len_app, <- (IH _ _ _ L5). lia.
Qed.

(** C7. A container written to a buffer by any sequence of calls and a
    [Close] that returned no error, of less than 2^64 bytes and with a
    compressor that closes no stream with nothing: the buffer holds the
    header, the streams of the entries one after the other, the table
    stream and the footer; the table lists the entries in the order of the
    [Create] calls that succeeded; every entry starts where the one before
    it ends, the first right after the header, so that offsets increase
    strictly and the [sizeCompressed] bytes at [index] are the entry's own
    stream, of which [adler] is the checksum; and the table offset in the
    footer is the end of the last entry's stream, where the table
    begins. *)
Theorem container_layout (ops : list op) (bw0 bw bw' : Writer Buffer)
    (rs : list (option error)) :
  (forall c : compressor, flate_Close c <> []) ->
  NewWriter (W := Buffer) [] = Ok bw0 ->
  run ops bw0 = Some (bw, rs) ->
  Close bw = Some (bw', None) ->
  len (bw_w bw') < 2 ^ 64 ->
  exists ss : list (list byte),
    bw_w bw' =
      headerBytes ++ concat ss ++ tableStream (bw_entries bw') ++
      (le_split 8 (4 + len (concat ss)) ++
       le_split 4 (adler32 (tableStream (bw_entries bw'))) ++
       le_split 4 (uint32 (len (bw_entries bw')))) /\
    map Name (bw_entries bw') = created ops rs /\
    laidOut 4 (bw_entries bw') ss /\
    StronglySorted Z.lt (map index (bw_entries bw')) /\
    (forall e s, In (e, s) (combine (bw_entries bw') ss) ->
       firstn (Z.to_nat (sizeCompressed e))
         (skipn (Z.to_nat (index e)) (bw_w bw')) = s) /\
    (exists es e, bw_entries bw' = es ++ [e] /\
                  4 + len (concat ss) = index e + sizeCompressed e) /\
    4 + len (concat ss) = len (headerBytes ++ concat ss).
Proof.
  intros Hne N R C Bound.
  assert (L0 : layout bw0).
  { unfold NewWriter, io_Write, Buffer_Writer in N.
    injection N as <-. split; [|discriminate].
    intros _. repeat split. }
  pose proof (run_layout _ _ _ _ L0 R) as [_ L1].
  assert (E : bw_err bw = None).
  { unfold Close in C. destruct (bw_err bw); [discriminate | reflexivity]. }
  destruct (L1 E) as (ss0 & cur & Lv).
  destruct (Close_live bw ss0 cur E Lv)
    as (b1 & s & b2 & F & St & Cl & Es & Ws).
  rewrite Cl in C. injection C as <-.
  destruct St as (Hw & Hc & Hp & Hi & Hn).
  set (ss := ss0 ++ [s]) in *.
  assert (Lh : len headerBytes = 4) by reflexivity.
  assert (B : 4 + len (concat ss) < 2 ^ 64).
  { rewrite Ws, Hw, !len_app in Bound.
    pose proof (len_nonneg (tableStream (bw_entries b1))).
    pose proof (len_nonneg (le_split 8 (bw_index b1))).
    pose proof (len_nonneg (le_split 4 (adler32 (tableStream (bw_entries b1))))).
    pose proof (len_nonneg (le_split 4 (uint32 (len (bw_entries b1))))).
    lia. }
  assert (Nn : Forall (fun t : list byte => t <> []) ss).
  { eapply Forall_impl; [|exact Hc]. cbn.
    intros t (a & c & ->) Q. apply app_eq_nil in Q. destruct Q as [_ Q].
    exact (Hne c Q). }
  assert (Lo : laidOut 4 (bw_entries b1) ss)
    by (apply placed_laidOut; [lia | assumption ..]).
  assert (Ix : bw_index b1 = 4 + len (concat ss)).
  { rewrite Hi. apply uint64_small. pose proof (len_nonneg (concat ss)). lia. }
  exists ss. rewrite Es.
  split; [|split; [|split; [|split; [|split; [|split]]]]].
  - rewrite Ws, Hw, Ix, <- !app_assoc. reflexivity.
  - destruct (finalizeEntry_names _ _ _ F) as [Nm _]. rewrite Nm.
    rewrite (run_created _ _ _ _ R).
    unfold NewWriter, io_Write, Buffer_Writer in N. injection N as <-.
    reflexivity.
  - exact Lo.
  - apply (laidOut_sorted _ _ _ Lo).
  - intros e t H. rewrite Ws, Hw, <- app_assoc.
    apply (laidOut_positions (bw_entries b1) 4 ss headerBytes); assumption.
  - destruct (exists_last Hn) as (es & e & Q). exists es, e.
    split; [exact Q|]. rewrite Q in Lo. apply (laidOut_last _ _ _ _ Lo).
  - rewrite len_app, Lh. reflexivity.
Qed.

End Layout.

(** ** Entries without content *)

Section EmptyEntries.

Context {flate : Inflater}.

Lemma empty_view_Read (er : entryReader) (n : nat) :
  er_count er = 0 ->
  exists v,
    entryReader_Read er n =
      Some ([], Some v,
            mkEntryReader (er_ar er) (er_r er) 0 (er_adler er) (Some v)).
Proof.
  intros C. unfold entryReader_Read.
  destruct (er_err er) as [e|] eqn:E.
  - exists e. destruct er; cbn in *. subst. reflexivity.
  - exists EOF. rewrite C.
    assert (Q : clip 0 n = Some 0%nat).
    { unfold clip. destruct (Z.ltb_spec 0 (Z.of_nat n)); [reflexivity|].
      f_equal. lia. }
    rewrite Q. cbn [readUnder]. rewrite C. reflexivity.
Qed.

(** A view on an entry of size 0 never reads from its decompressor: every
    [Read] returns no byte, the digest stays at its initial value 1, and
    [Close] returns ErrInvalidChecksum unless the checksum in the record is
    1, which is not the Adler-32 of any compressed stream. *)
Lemma empty_entry_checksum (br br0 : Reader) (e : Entry)
    (er0 er : entryReader) (ns : list nat)
    (rs : list (list byte * option error)) :
  Size e = 0 ->
  EntryReader br e = Ok (er0, br0) ->
  readSeq ns er0 = Some (rs, er) ->
  Forall (fun r => fst r = []) rs /\
  adlerReader_Adler (er_ar er) = adler32_New /\
  (adler e <> adler32_New -> entryReader_Close er = Some ErrInvalidChecksum).
Proof.
  intros Z O R.
  assert (I0 : er_count er0 = 0 /\ ar_adler (er_ar er0) = adler32_New /\
               er_adler er0 = adler e).
  { unfold EntryReader in O. destruct (File_Seek _ _ _); [|discriminate].
    injection O as <- <-. cbn. rewrite Z. repeat split. }
  clear O. revert er0 rs R I0.
  induction ns as [|n ns IH]; intros er0 rs R (C & A & D).
  - cbn in R. injection R as <- <-. split; [constructor|].
    split; [exact A|]. intros N. unfold entryReader_Close, adlerReader_Adler.
    rewrite A, D. destruct (Z.eqb_spec (adler e) adler32_New);
      [contradiction | reflexivity].
  - cbn [readSeq] in R.
    destruct (empty_view_Read er0 n C) as [v Rd]. rewrite Rd in R.
    destruct (readSeq ns _) as [[rs1 er2]|] eqn:R2; [|discriminate].
    injection R as <- <-.
    destruct (IH _ _ R2) as (F & A2 & K); [cbn; auto|].
    split; [constructor; [reflexivity | exact F]|]. auto.
Qed.

End EmptyEntries.

(** C1 fails on the scenario of the specification.  The container written
    for [a.txt] (hello, 0644) and the empty [dir/b.txt] (0755) opens and
    lists both entries with their names, permission bits and sizes, and
    [a.txt] reads back as written and closes without error; the view on
    [dir/b.txt] returns no byte, as it should, but its [Close] returns
    ErrInvalidChecksum: no compressed byte was read, while the checksum of
    the record is that of the five bytes of the entry's stream. *)
Theorem scenario_empty_entry_checksum :
  listing 4 64 scenarioArchive =
    Some (Ok [("a.txt"%string, 420, 5,
               Some (Ok (bytes_of_string "hello", None)));
              ("dir/b.txt"%string, 493, 0,
               Some (Ok ([], Some ErrInvalidChecksum)))]) /\
  (exists bw rs,
      writeArchive (W := Buffer) [] scenarioFiles = Some (Ok (bw, rs)) /\
      bw_w bw = scenarioArchive /\
      rs = [None; None; None; None; None; None; None] /\
      map adler (bw_entries bw) =
        [adler32 (flat_map storedBlock (bytes_of_string "hello") ++
                  storedFinal);
         adler32 storedFinal]).
Proof.
  split; [vm_compute; reflexivity|].
  eexists _, _. split; [vm_compute; reflexivity|].
  split; [vm_compute; reflexivity|].
  split; vm_compute; reflexivity.
Qed.

(** ** The theorems at concrete inputs *)

Lemma eager_Read_bound (decode : list byte -> option (list byte * nat))
    (d : eager) (src : list byte) (m : nat) :
  (length (fst (fst (eager_Read decode d src m))) <= m)%nat.
Proof.
  unfold eager_Read.
  destruct (match d with
            | Fresh =>
                match decode src with
                | Some (out, k) => (out, Some EOF, k)
                | None => ([], Some ErrUnexpectedEOF, length src)
                end
            | Decoded t e => (t, e, 0%nat)
            end) as [[toRead err] k].
  destruct toRead as [|b t]; [cbn; lia|].
  destruct (skipn m (b :: t)); cbn [fst]; rewrite length_firstn; lia.
Qed.

Lemma entry_record_codec_witness :
  exists rec,
    recordBytes (mkEntry "a.txt" 5 420 35 4 3931508234) = Some rec /\
    parseRecord (rec ++ [Byte.xff]) =
      Some (mkEntry "a.txt" 5 420 35 4 3931508234, [Byte.xff]).
Proof.
  assert (T : Entry_typed (mkEntry "a.txt" 5 420 35 4 3931508234))
    by (constructor; unfold is_uint; cbn; lia).
  destruct (entry_record_codec (mkEntry "a.txt" 5 420 35 4 3931508234)
              [Byte.xff] T ltac:(cbn; lia)) as (R & _ & P & _).
  eexists. split; [exact R | apply P; exact R].
Defined.


Ltac by_eval := vm_compute; reflexivity.


Lemma entryReader_Read_contract_witness :
  exists er',
    entryReader_Read scenarioView 64 =
      Some (bytes_of_string "hello", Some EOF, er') /\
    entryReader_Read er' 64 = Some ([], Some EOF, er').
Proof.
  destruct (entryReader_Read_contract 5 0 scenarioView 64
              (eager_Read_bound inflate) ltac:(lia) ltac:(lia)
              eq_refl eq_refl)
    as (n' & bs & v & er' & Hc & Hr & _ & _ & _ & _ & Heof & Hl).
  assert (Q : entryReader_Read scenarioView 64 =
              Some (bytes_of_string "hello", Some EOF,
                    match entryReader_Read scenarioView 64 with
                    | Some (_, _, x) => x
                    | None => scenarioView
                    end)) by reflexivity.
  rewrite Hr in Q. injection Q as Qb Qv.
  exists er'. split.
  - rewrite Hr, Qb, Qv. reflexivity.
  - apply Hl. exact Qv.
Defined.

Lemma entryReader_Close_scoped_witness :
  exists rs er,
    readSeq [64%nat; 64%nat] scenarioView = Some (rs, er) /\
    map fst rs = [bytes_of_string "hello"; []] /\
    entryReader_Close er = None.
Proof.
  assert (H1 : EntryReader scenarioReader
                 (mkEntry "a.txt" 5 420 35 4 3931508234) =
               Ok (scenarioView,
                   mkReader scenarioEntries (mkFile scenarioArchive 4)))
    by reflexivity.
  set (p := match readSeq [64%nat; 64%nat] scenarioView with
            | Some p => p
            | None => ([], scenarioView)
            end).
  assert (H2 : readSeq [64%nat; 64%nat] scenarioView = Some (fst p, snd p))
    by reflexivity.
  destruct (entryReader_Close_scoped _ _ _ _ _ _ _ H1 H2)
    as (_ & _ & C & _).
  exists (fst p), (snd p). split; [exact H2|].
  split; [reflexivity|].
  apply C. reflexivity.
Defined.

Lemma table_truncation_witness :
  NewReader (mkFile scenarioArchive 0) = Some (Ok scenarioReader).
Proof.
  eassert (H1 : readHeader (mkFile scenarioArchive 0) = Ok _) by by_eval.
  eassert (H2 : readFooter (mkFile scenarioArchive 4) =
                Some (Ok (44, 1331144206, 2, mkFile scenarioArchive 44)))
    by by_eval.
  eassert (H4 : readEntries 1 0 2
                  (newAdlerReader (File_rest (mkFile scenarioArchive 44)),
                   flate_NewReader) = Some (Ok (_, _))) by by_eval.
  match type of H4 with
  | _ = Some (Ok (_, ?s)) =>
      eassert (H5 : stream_Read s entrySize = (_, None, _)) by by_eval
  end.
  destruct (table_truncation _ _ _ _ _ _ 1%nat _ _ _ _ _ H1 H2
              ltac:(lia) H4 H5) as [_ P].
  match type of H5 with
  | _ = (?bs, _, ?s1) =>
      eassert (D : decodeEntry (fill entrySize bs) = Some (_, 9)) by by_eval;
      eassert (R2 : stream_Read s1 (Z.to_nat 9) = (_, Some EOF, _)) by by_eval
  end.
  destruct (P _ _ _ _ eq_refl D R2) as [_ Q].
  rewrite (Q eq_refl). by_eval.
Defined.

Lemma container_layout_witness :
  exists ss : list (list byte),
    laidOut 4 scenarioEntries ss /\
    scenarioArchive =
      headerBytes ++ concat ss ++ tableStream scenarioEntries ++
      (le_split 8 (4 + len (concat ss)) ++
       le_split 4 (adler32 (tableStream scenarioEntries)) ++
       le_split 4 (uint32 (len scenarioEntries))).
Proof.
  eassert (H1 : NewWriter (W := Buffer) [] = Ok _) by by_eval.
  match type of H1 with
  | _ = Ok ?b =>
      eassert (H2 : run (flat_map addFile scenarioFiles) b = Some (_, _))
        by by_eval
  end.
  match type of H2 with
  | _ = Some (?b, _) =>
      eassert (H3 : Close b = Some (_, None)) by by_eval
  end.
  assert (Hne : forall c : @compressor Stored_Deflater, flate_Close c <> [])
    by (intros c Q; discriminate Q).
  destruct (container_layout _ _ _ _ _ Hne H1 H2 H3 ltac:(by_eval))
    as (ss & W & _ & Lo & _).
  exists ss. split; [exact Lo | exact W].
Defined.

Lemma writer_error_latch_witness :
  exists bw bw' : Writer LimitedWriter,
    crampedWriter = Some bw /\
    step (OpWrite (bytes_of_string "hello")) bw =
      Some (bw', Some (ErrExternal 28)) /\
    run [OpWrite []; OpSetPerms 493; OpCreate "b"; OpClose] bw' =
      Some (bw', [Some (ErrExternal 28); Some (ErrExternal 28);
                  Some (ErrExternal 28); Some (ErrExternal 28)]).
Proof.
  eassert (H0 : crampedWriter = Some _) by by_eval.
  match type of H0 with
  | _ = Some ?b =>
      eassert (H1 : step (OpWrite (bytes_of_string "hello")) b =
                    Some (_, Some (ErrExternal 28))) by by_eval
  end.
  destruct (writer_error_latch _ _ _ _ H1) as [L _].
  destruct (L _ eq_refl) as (_ & R & _).
  eexists _, _. split; [exact H0|]. split; [exact H1|].
  apply (R ltac:(discriminate)
           [OpWrite []; OpSetPerms 493; OpCreate "b"; OpClose]).
Defined.

Lemma Create_rejects_witness :
  exists bw0 bw' : Writer Buffer,
    NewWriter [] = Ok bw0 /\
    Create "../x" bw0 = Some (bw', Some ErrPathIsNotSimple) /\
    bw_entries bw' = [] /\ bw_w bw' = headerBytes /\
    Close bw' = Some (bw', Some ErrPathIsNotSimple).
Proof.
  eassert (H0 : NewWriter (W := Buffer) [] = Ok _) by by_eval.
  match type of H0 with
  | _ = Ok ?b => eassert (H1 : Create "../x" b = Some (_, _)) by by_eval
  end.
  assert (Bad : negb (filepath_IsLocal "../x") || hasBackslash "../x" = true)
    by reflexivity.
  destruct (Create_rejects "../x" _ _ _ Bad H1) as (_ & _ & _ & _ & R).
  eexists _, _. split; [exact H0|]. split; [exact H1|].
  split; [by_eval|]. split; [by_eval|].
  specialize (R eq_refl [OpClose]). cbn [run step map] in R.
  destruct (Close _) as [[b e]|]; [|discriminate R].
  injection R as -> ->. reflexivity.
Defined.

Lemma entryless_writer_witness :
  exists bw0 : Writer Buffer,
    NewWriter [] = Ok bw0 /\
    run [OpWrite (bytes_of_string "hello"); OpSetPerms 493; OpClose] bw0 =
      Some (bw0, [Some ErrNoValidEntry; Some ErrNoValidEntry;
                  Some ErrNoValidEntry]).
Proof.
  eassert (H0 : NewWriter (W := Buffer) [] = Ok _) by by_eval.
  destruct (entryless_writer _ _ H0) as [F _].
  eexists. split; [exact H0|].
  apply (F [OpWrite (bytes_of_string "hello"); OpSetPerms 493; OpClose]).
  intros name [Q|[Q|[Q|[]]]]; discriminate Q.
Defined.

(** ** Where the claims fail *)

(** C8 as stated fails: [Write] on a new Writer returns ErrNoValidEntry,
    and the [Create] that follows returns no error. *)
Lemma writer_latch_counterexample :
  ~ (forall (bw0 bw1 : Writer Buffer) (o o' : op) (e : error),
       NewWriter [] = Ok bw0 ->
       step o bw0 = Some (bw1, Some e) ->
       step o' bw1 = Some (bw1, Some e)).
Proof.
  intros H.
  eassert (H0 : NewWriter (W := Buffer) [] = Ok _) by by_eval.
  match type of H0 with
  | _ = Ok ?b =>
      eassert (H1 : step (OpWrite (bytes_of_string "hello")) b =
                    Some (_, Some ErrNoValidEntry)) by by_eval
  end.
  specialize (H _ _ _ (OpCreate "a.txt") _ H0 H1).
  vm_compute in H. discriminate H.
Qed.

(** C9 as stated fails: the name [a/../b] holds a parent-directory segment
    and is local, so that [Create] accepts it and appends its entry. *)
Lemma Create_parent_segment_counterexample :
  ~ (forall (bw0 : Writer Buffer) (name : string),
       NewWriter [] = Ok bw0 ->
       hasParentSegment name = true ->
       exists bw' e, Create name bw0 = Some (bw', Some e)).
Proof.
  intros H.
  eassert (H0 : NewWriter (W := Buffer) [] = Ok _) by by_eval.
  destruct (H _ "a/../b"%string H0 eq_refl) as (bw' & e & C).
  vm_compute in C. discriminate C.
Qed.

(** C10 as stated fails: after a [Create] that was rejected, and so before
    any [Create] has succeeded, [Write] returns ErrPathIsNotSimple, not
    ErrNoValidEntry. *)
Lemma entryless_error_counterexample :
  ~ (forall (bw0 bw : Writer Buffer) (ops : list op)
            (rs : list (option error)) (p : list byte),
       NewWriter [] = Ok bw0 ->
       run ops bw0 = Some (bw, rs) ->
       created ops rs = [] ->
       Write p bw = Some (bw, (0, Some ErrNoValidEntry))).
Proof.
  intros H.
  eassert (H0 : NewWriter (W := Buffer) [] = Ok _) by by_eval.
  match type of H0 with
  | _ = Ok ?b =>
      eassert (H1 : run [OpCreate "../x"] b = Some (_, _)) by by_eval
  end.
  specialize (H _ _ _ _ (bytes_of_string "hello") H0 H1 eq_refl).
  vm_compute in H. discriminate H.
Qed.

(** * Further properties of the code *)

(** ** The byte-order cursors *)

(** A value put through a [wBuf] cursor and then a second one are read back
    through an [rBuf] cursor over the same bytes, each reduced to its
    width, and the rest of the buffer is as it was; a put or a get on a
    slice shorter than the width panics. *)
Theorem cursor_roundtrip (n m : nat) (u v : Z) (buf : list byte) :
  ((n + m <= length buf)%nat ->
   exists wb1 wb2,
     wBuf_put n u (wBuf_of buf) = Some wb1 /\
     wBuf_put m v wb1 = Some wb2 /\
     length (wBuf_backing wb2) = length buf /\
     exists rb1,
       rBuf_get n (wBuf_backing wb2) = Some (u mod 2 ^ (Z.of_nat n * 8), rb1) /\
       rBuf_get m rb1 =
         Some (v mod 2 ^ (Z.of_nat m * 8), skipn (n + m) buf)) /\
  ((length buf < n)%nat ->
   wBuf_put n u (wBuf_of buf) = None /\ rBuf_get n buf = None).
Proof.
  split.
  - intros L. unfold wBuf_of.
    eexists _, _. split; [apply wBuf_put_fits; lia|].
    split; [apply wBuf_put_fits; rewrite length_skipn; lia|].
    unfold wBuf_backing. cbn [wb_done wb_rest app].
    split.
    + rewrite !length_app, !length_le_split, !length_skipn. lia.
    + eexists. rewrite <- app_assoc, rBuf_get_split. split; [reflexivity|].
      rewrite rBuf_get_split, skipn_skipn.
      now replace (m + n)%nat with (n + m)%nat by lia.
  - intros L. unfold wBuf_put, rBuf_get, wBuf_of. cbn [wb_rest].
    destruct (Nat.ltb_spec (length buf) n); [auto | lia].
Qed.

(** ** The header *)

Lemma bytes_eqb_eq (a b : list byte) : bytes_eqb a b = true <-> a = b.
Proof.
  revert b. induction a as [|x a IH]; intros [|y b]; cbn [bytes_eqb];
    try (split; [discriminate | discriminate]); [tauto|].
  rewrite andb_true_iff, IH. split.
  - intros [E ->]. apply Byte.byte_dec_bl in E. now subst.
  - intros [= -> ->]. split; [now apply Byte.byte_dec_lb | reflexivity].
Qed.

Lemma version_eqb (b : byte) :
  (byte.unsigned b =? Version) = true <-> b = Byte.x01.
Proof.
  rewrite Z.eqb_eq. split.
  - intros H. apply byte.unsigned_inj. rewrite H. reflexivity.
  - intros ->. reflexivity.
Qed.

(** What [readHeader] returns, by the bytes at the cursor. *)
Lemma readHeader_cases (r : File) :
  readHeader r =
  match File_rest r with
  | [] => Err ErrUnexpectedEOF
  | rest =>
      if negb (bytes_eqb (firstn 3 (fill headerSize (firstn 4 rest)))
                 magicNumber)
      then Err ErrUnknownFormat
      else if negb (byte.unsigned
                      (nth 3 (fill headerSize (firstn 4 rest)) Byte.x00)
                    =? Version)
      then Err ErrUnsupportedVersion
      else Ok (mkFile (f_data r) (f_pos r + len (firstn 4 rest)))
  end.
Proof.
  unfold readHeader, File_Read, File_rest, headerSize.
  destruct (skipn (Z.to_nat (f_pos r)) (f_data r)); reflexivity.
Qed.

(** The first phase of [NewReader], by the bytes at the cursor: a source
    that is at its end gives ErrUnexpectedEOF; one that does not begin with
    the magic number gives ErrUnknownFormat, also when it is shorter than
    the header; one that begins with the magic number not followed by the
    version byte 1 gives ErrUnsupportedVersion, also when it ends after
    the magic number; and the header is passed, with the cursor four bytes
    on, exactly when the source begins with the four header bytes. *)
Theorem NewReader_header {flate : Inflater} (r : File) :
  (File_rest r = [] -> NewReader r = Some (Err ErrUnexpectedEOF)) /\
  (File_rest r <> [] -> firstn 3 (File_rest r) <> magicNumber ->
   NewReader r = Some (Err ErrUnknownFormat)) /\
  (firstn 3 (File_rest r) = magicNumber ->
   firstn 4 (File_rest r) <> headerBytes ->
   NewReader r = Some (Err ErrUnsupportedVersion)) /\
  (firstn 4 (File_rest r) = headerBytes <->
   readHeader r = Ok (mkFile (f_data r) (f_pos r + 4))) /\
  (forall r1, readHeader r = Ok r1 ->
              firstn 4 (File_rest r) = headerBytes).
Proof.
  unfold NewReader. rewrite readHeader_cases.
  destruct (File_rest r) as [|a [|b [|c [|d rest]]]] eqn:E;
    cbn [firstn fill headerSize length Nat.sub make repeat app nth].
  - repeat split; try discriminate; try congruence.
  - repeat split; try discriminate; try congruence;
      cbn [firstn bytes_eqb magicNumber];
      destruct (Byte.eqb a Byte.x42); cbn; try rewrite andb_false_r;
      try reflexivity; try discriminate; intros; try discriminate;
      destruct (Byte.eqb Byte.x00 Byte.x41); discriminate.
  - repeat split; try discriminate; try congruence;
      cbn [firstn bytes_eqb magicNumber];
      destruct (Byte.eqb a Byte.x42), (Byte.eqb b Byte.x41); cbn;
      try reflexivity; try discriminate; intros; discriminate.
  - assert (V : (byte.unsigned Byte.x00 =? Version) = false) by reflexivity.
    destruct (bytes_eqb [a; b; c] magicNumber) eqn:M; cbn [negb].
    + apply bytes_eqb_eq in M. rewrite V. cbn [negb].
      repeat split; try discriminate; try congruence.
    + assert ([a; b; c] <> magicNumber)
        by (intros Q; apply bytes_eqb_eq in Q; congruence).
      repeat split; try discriminate; try congruence;
        intros; try contradiction; discriminate.
  - destruct (bytes_eqb [a; b; c] magicNumber) eqn:M; cbn [negb].
    + apply bytes_eqb_eq in M.
      destruct (byte.unsigned d =? Version) eqn:V; cbn [negb].
      * apply version_eqb in V. subst d. injection M as -> -> ->.
        assert (L : len [Byte.x42; Byte.x41; Byte.x52; Byte.x01] = 4)
          by reflexivity.
        rewrite L.
        repeat split; try discriminate; try congruence;
          intros; try contradiction; reflexivity.
      * assert (d <> Byte.x01)
          by (intros Q; apply version_eqb in Q; congruence).
        injection M as -> -> ->.
        repeat split; try discriminate; try congruence;
          intros; try contradiction; try reflexivity;
          unfold headerBytes, magicNumber in *; cbn in *; congruence.
    + assert ([a; b; c] <> magicNumber)
        by (intros Q; apply bytes_eqb_eq in Q; congruence).
      repeat split; try discriminate; try congruence;
        intros; try contradiction; try reflexivity;
        unfold headerBytes, magicNumber in *; cbn in *; congruence.
Qed.

(** ** Opening any source *)




(** ** The footer *)

Lemma File_Read_rest (f : File) (n : nat) :
  File_rest f <> [] -> n <> 0%nat ->
  File_Read f n =
  (firstn n (File_rest f), None,
   mkFile (f_data f) (f_pos f + len (firstn n (File_rest f)))).
Proof.
  unfold File_Read, File_rest. intros H N.
  destruct n; [contradiction|].
  destruct (skipn (Z.to_nat (f_pos f)) (f_data f)); [contradiction|].
  reflexivity.
Qed.

Lemma fill_full (n : nat) (bs : list byte) : length bs = n -> fill n bs = bs.
Proof.
  intros L. unfold fill, make. rewrite L, Nat.sub_diag. cbn [repeat].
  rewrite app_nil_r. apply firstn_all2. lia.
Qed.

Lemma decodeFooter_layout (t a c : Z) :
  is_uint 64 t -> is_uint 32 a -> is_uint 32 c ->
  decodeFooter (le_split 8 t ++ le_split 4 a ++ le_split 4 c) =
  Some (t, a, c).
Proof.
  intros Ht Ha Hc. unfold decodeFooter, rBuf_Uint64, rBuf_Uint32.
  rewrite rBuf_get_split, (uint_small 64) by assumption.
  rewrite rBuf_get_split, (uint_small 32) by assumption.
  rewrite <- (app_nil_r (le_split 4 c)), rBuf_get_split.
  now rewrite (uint_small 32) by assumption.
Qed.

Lemma readFooter_at_end (body : list byte) (pos t a c : Z) :
  is_uint 64 t -> is_uint 32 a -> is_uint 32 c ->
  readFooter (mkFile (body ++ le_split 8 t ++ le_split 4 a ++ le_split 4 c)
                pos) =
  if t <? 2 ^ 63
  then Some (Ok (t, a, c,
                 mkFile (body ++ le_split 8 t ++ le_split 4 a ++
                         le_split 4 c) t))
  else Some (Err (ErrExternal 22)).
Proof.
  intros Ht Ha Hc.
  set (footer := le_split 8 t ++ le_split 4 a ++ le_split 4 c).
  assert (Lf : length footer = 16%nat)
    by (unfold footer; rewrite !length_app, !length_le_split; reflexivity).
  unfold readFooter, File_Seek. cbn [f_data].
  assert (P : len (body ++ footer) + - Z.of_nat footerSize = len body)
    by (rewrite len_app; unfold len, footerSize; lia).
  rewrite P.
  destruct (Z.ltb_spec (len body) 0); [pose proof (len_nonneg body); lia|].
  assert (R : File_rest (mkFile (body ++ footer) (len body)) = footer).
  { unfold File_rest, len. cbn [f_data f_pos]. rewrite Nat2Z.id.
    rewrite skipn_app, skipn_all, Nat.sub_diag. reflexivity. }
  rewrite File_Read_rest;
    [rewrite R
    | rewrite R; intros Q; rewrite Q in Lf; discriminate Lf
    | unfold footerSize; discriminate].
  unfold footerSize.
  rewrite firstn_all2 by lia. rewrite fill_full by exact Lf.
  unfold footer at 1. rewrite decodeFooter_layout by assumption.
  cbn [f_data].
  unfold is_uint in Ht.
  destruct (Z.ltb_spec t (2 ^ 63)).
  - rewrite int64_small by lia.
    destruct (Z.ltb_spec t 0); [lia | reflexivity].
  - assert (Q : int64 t = t - 2 ^ 64).
    { unfold int64.
      replace (t + 2 ^ 63) with (t - 2 ^ 63 + 1 * 2 ^ 64) by lia.
      rewrite Z_mod_plus_full, Z.mod_small; lia. }
    rewrite Q. destruct (Z.ltb_spec (t - 2 ^ 64) 0); [reflexivity | lia].
Qed.

(** The footer that [Close] writes, read back by [NewReader] from the end
    of any source that ends with it, wherever the cursor is: the table
    offset, the checksum and the count come back as written and the cursor
    is put at the table offset; a table offset of 2^63 or more, which is
    negative as an int64, is refused with the error of the seek. *)
Theorem footer_roundtrip (body footer : list byte) (pos t a c : Z) :
  is_uint 64 t -> is_uint 32 a -> is_uint 32 c ->
  footerBytes t a c = Some footer ->
  length footer = footerSize /\
  readFooter (mkFile (body ++ footer) pos) =
  if t <? 2 ^ 63
  then Some (Ok (t, a, c, mkFile (body ++ footer) t))
  else Some (Err (ErrExternal 22)).
Proof.
  intros Ht Ha Hc F. rewrite footerBytes_layout in F.
  assert (E : footer = le_split 8 t ++ le_split 4 a ++ le_split 4 c)
    by congruence.
  subst footer. clear F. split.
  - rewrite !length_app, !length_le_split. reflexivity.
  - now apply readFooter_at_end.
Qed.

(** ** The checksum reader *)




(** ** Views that panic, views that read nothing *)

(** [entryReader.Read] panics, on the slice expression that clips its
    buffer, exactly when no error is latched and the count is negative.
    That is the case of every view opened on a record whose size is 2^63
    or more, whatever the buffer. *)
Theorem entryReader_Read_panics {flate : Inflater} :
  (forall (er : entryReader) (n : nat),
      entryReader_Read er n = None <-> er_err er = None /\ er_count er < 0) /\
  (forall (br br0 : Reader) (e : Entry) (er : entryReader) (n : nat),
      2 ^ 63 <= Size e < 2 ^ 64 ->
      EntryReader br e = Ok (er, br0) ->
      entryReader_Read er n = None).
Proof.
  assert (A : forall (er : entryReader) (n : nat),
             entryReader_Read er n = None <->
             er_err er = None /\ er_count er < 0).
  { intros er n. unfold entryReader_Read, clip.
    destruct (er_err er); [split; [discriminate | intros [H _]; discriminate]|].
    destruct (Z.ltb_spec (er_count er) (Z.of_nat n)).
    - destruct (Z.ltb_spec (er_count er) 0).
      + split; auto.
      + cbn. destruct (readUnder er (Z.to_nat (er_count er)))
          as [[[[bs err] ar] d] count].
        split; [discriminate | intros [_ H1]; lia].
    - cbn. destruct (readUnder er n) as [[[[bs err] ar] d] count].
      split; [discriminate | intros [_ H1]; lia]. }
  split; [exact A|].
  intros br br0 e er n S O. apply A.
  unfold EntryReader in O. destruct (File_Seek _ _ _); [|discriminate].
  injection O as <- _. cbn [er_err er_count]. split; [reflexivity|].
  unfold int64.
  replace (Size e + 2 ^ 63) with (Size e - 2 ^ 63 + 1 * 2 ^ 64) by lia.
  rewrite Z_mod_plus_full, Z.mod_small; lia.
Qed.

(** ** Whole archives: the writer *)

Section ArchiveWriter.

Context {flate : Deflater} {path : PathLib}.

Lemma dataWriter_Write_new (w : Buffer) (p : list byte) :
  dataWriter_Write newDataWriter w p =
  (mkDataWriter (uint64 (len p))
     (uint64 (len (snd (flate_Write flate_NewWriter p))))
     (adler32 (snd (flate_Write flate_NewWriter p)))
     (fst (flate_Write flate_NewWriter p)),
   w ++ snd (flate_Write flate_NewWriter p), None).
Proof.
  unfold dataWriter_Write, newDataWriter.
  cbn [deflate uncompCounter compCounter dw_adler].
  destruct (flate_Write flate_NewWriter p) as [c out]. cbn [fst snd].
  destruct out as [|b out].
  - cbn [emit]. rewrite app_nil_r. reflexivity.
  - cbn [emit]. unfold compCounter_Write, adlerWriter_Write, io_Write,
      Buffer_Writer. reflexivity.
Qed.

Lemma dataWriter_Close_exact (w : Buffer) (u : Z) (out : list byte)
    (c : compressor) :
  dataWriter_Close (mkDataWriter u (uint64 (len out)) (adler32 out) c) w =
  (mkDataWriter u (uint64 (len (out ++ flate_Close c)))
     (adler32 (out ++ flate_Close c)) c,
   w ++ flate_Close c, None).
Proof.
  unfold dataWriter_Close. cbn [deflate].
  destruct (flate_Close c) as [|b cl].
  - cbn [emit]. rewrite !app_nil_r. reflexivity.
  - cbn [emit]. unfold compCounter_Write, adlerWriter_Write, io_Write,
      Buffer_Writer. cbn [uncompCounter compCounter dw_adler deflate].
    rewrite uint64_add_l, len_app. unfold adler32.
    rewrite adler32_update_app. reflexivity.
Qed.

Lemma fileStream_eq (content : list byte) :
  fileStream content =
  snd (flate_Write flate_NewWriter content) ++
  flate_Close (fst (flate_Write flate_NewWriter content)).
Proof.
  unfold fileStream. cbn [deflateChunks].
  destruct (flate_Write flate_NewWriter content). reflexivity.
Qed.

(** Ending the entry of [f]. *)
Lemma finalizeEntry_written (w : Buffer) (idx : Z) (done : list Entry)
    (f : file) :
  finalizeEntry (written w idx done f) =
  Some (mkWriter (w ++ fileStream (fileContent f))
          (uint64 (idx + uint64 (len (fileStream (fileContent f)))))
          (done ++ fileEntries idx [f]) None None,
        None).
Proof.
  unfold written. cbn [fileEntries]. rewrite fileStream_eq.
  destruct (flate_Write flate_NewWriter (fileContent f)) as [c out].
  cbn [fst snd]. unfold finalizeEntry. cbn [bw_curr bw_w bw_entries bw_index
                                             bw_err].
  rewrite dataWriter_Close_exact, set_last_app.
  unfold CompressedCount, UncompressedCount, dataWriter_Adler.
  cbn [compCounter uncompCounter dw_adler Name Perm index fst snd].
  rewrite <- app_assoc. reflexivity.
Qed.

Lemma written_err (w : Buffer) (idx : Z) (done : list Entry) (f : file) :
  bw_err (written w idx done f) = None.
Proof.
  unfold written. now destruct (flate_Write flate_NewWriter (fileContent f)).
Qed.

Lemma writeTable_written (w : Buffer) (idx : Z) (done : list Entry)
    (f : file) :
  writeTable (written w idx done f) =
  Some (mkWriter
          (w ++ fileStream (fileContent f) ++
           tableStream (done ++ fileEntries idx [f]))
          (uint64 (idx + uint64 (len (fileStream (fileContent f)))))
          (done ++ fileEntries idx [f]) None None,
        Ok (adler32 (tableStream (done ++ fileEntries idx [f])))).
Proof.
  unfold writeTable. rewrite finalizeEntry_written.
  cbn [bw_entries bw_w].
  destruct (writeRecords_buffer (done ++ fileEntries idx [f]) newDataWriter
              (w ++ fileStream (fileContent f)) [] eq_refl eq_refl)
    as (dw' & X & E & C & A & D).
  rewrite E.
  destruct (dataWriter_Close_buffer dw' ((w ++ fileStream (fileContent f)) ++ X)
              ([] ++ X) C A) as (dw'' & E2 & _ & A2).
  rewrite E2. unfold set_w, dataWriter_Adler. cbn [bw_w bw_index bw_entries
                                                    bw_curr bw_err].
  rewrite A2. cbn [app]. rewrite D. cbn [newDataWriter deflate].
  fold (tableStream (done ++ fileEntries idx [f])).
  rewrite <- !app_assoc, D. reflexivity.
Qed.

Lemma Close_written (w : Buffer) (idx : Z) (done : list Entry) (f : file) :
  Close (written w idx done f) =
  Some (mkWriter
          (w ++ fileStream (fileContent f) ++
           tableStream (done ++ fileEntries idx [f]) ++
           le_split 8 (endIndex idx [f]) ++
           le_split 4 (adler32 (tableStream (done ++ fileEntries idx [f]))) ++
           le_split 4 (uint32 (len (done ++ fileEntries idx [f]))))
          (endIndex idx [f])
          (done ++ fileEntries idx [f]) None (Some ErrWriteAfterClose),
        None).
Proof.
  unfold Close. rewrite written_err, writeTable_written.
  cbn [bw_index bw_entries bw_w]. rewrite footerBytes_layout.
  unfold io_Write, Buffer_Writer, set_err, set_w.
  cbn [bw_index bw_entries bw_w bw_curr bw_err endIndex].
  rewrite <- !app_assoc. reflexivity.
Qed.

Lemma addFile_created (f : file) (bw : Writer Buffer) (w : Buffer) (idx : Z)
    (done : list Entry) :
  Create (fileName f) bw =
  Some (mkWriter w idx (done ++ [mkEntry (fileName f) 0 420 0 idx 0])
          (Some newDataWriter) None, None) ->
  run (addFile f) bw = Some (written w idx done f, [None; None; None]).
Proof.
  intros C. destruct f as [[name perm] content].
  unfold written. unfold fileName, filePerm, fileContent in *.
  cbn [fst snd] in *.
  cbn [addFile run step]. rewrite C.
  unfold SetPerms, Write. cbn [bw_err bw_entries bw_w bw_index bw_curr].
  rewrite set_last_app.
  cbn [bw_err bw_entries bw_w bw_index bw_curr Name Size Perm sizeCompressed
         index adler].
  rewrite dataWriter_Write_new.
  destruct (flate_Write flate_NewWriter content) as [c out].
  reflexivity.
Qed.

Lemma addFile_first (f : file) (w : Buffer) :
  validName (fileName f) ->
  run (addFile f) (mkWriter w 4 [] None (Some ErrNoValidEntry)) =
  Some (written w 4 [] f, [None; None; None]).
Proof.
  intros V. apply addFile_created. unfold Create, latched.
  cbn [bw_err bw_entries bw_w bw_index bw_curr]. unfold validName in V.
  rewrite V. reflexivity.
Qed.

Lemma addFile_next (f' f : file) (w : Buffer) (idx : Z) (done : list Entry) :
  validName (fileName f') ->
  run (addFile f') (written w idx done f) =
  Some (written (w ++ fileStream (fileContent f))
          (uint64 (idx + uint64 (len (fileStream (fileContent f)))))
          (done ++ fileEntries idx [f]) f',
        [None; None; None]).
Proof.
  intros V. apply addFile_created. unfold Create, latched.
  rewrite written_err, finalizeEntry_written.
  cbn [bw_err bw_entries bw_w bw_index bw_curr]. unfold validName in V.
  rewrite V. reflexivity.
Qed.

Lemma run_app {W : Type} {sink : IoWriter W} (a b : list op) :
  forall (bw bw1 bw2 : Writer W) (ea eb : list (option error)),
  run a bw = Some (bw1, ea) ->
  run b bw1 = Some (bw2, eb) ->
  run (a ++ b) bw = Some (bw2, ea ++ eb).
Proof.
  induction a as [|o a IH]; intros bw bw1 bw2 ea eb A B.
  - cbn in A. injection A as <- <-. exact B.
  - cbn [app run] in *. destruct (step o bw) as [[bw' e]|]; [|discriminate].
    cbn in *. destruct (run a bw') as [[bw'' es]|] eqn:R; [|discriminate].
    cbn in A. injection A as <- <-.
    rewrite (IH bw' bw'' bw2 es eb R B). reflexivity.
Qed.

Lemma run_files (files : list file) :
  forall (f : file) (w : Buffer) (idx : Z) (done : list Entry),
  Forall (fun f => validName (fileName f)) files ->
  run (archiveOps files) (written w idx done f) =
  Some (mkWriter
          (w ++ fileStreams (f :: files) ++
           tableStream (done ++ fileEntries idx (f :: files)) ++
           le_split 8 (endIndex idx (f :: files)) ++
           le_split 4
             (adler32 (tableStream (done ++ fileEntries idx (f :: files)))) ++
           le_split 4 (uint32 (len (done ++ fileEntries idx (f :: files)))))
          (endIndex idx (f :: files))
          (done ++ fileEntries idx (f :: files)) None
          (Some ErrWriteAfterClose),
        repeat None (3 * length files + 1)).
Proof.
  induction files as [|f' files IH]; intros f w idx done V.
  - unfold archiveOps. cbn [flat_map app run step].
    rewrite Close_written. unfold fileStreams. cbn [map concat].
    rewrite app_nil_r. reflexivity.
  - inversion V as [|? ? V1 V2]; subst.
    unfold archiveOps. cbn [flat_map]. rewrite <- app_assoc.
    replace (3 * length (f' :: files) + 1)%nat
      with (3 + (3 * length files + 1))%nat by (cbn [length]; lia).
    apply (run_app _ _ _ _ _ [None; None; None] _ (addFile_next f' f w idx done V1)).
    fold (archiveOps files). rewrite (IH _ _ _ _ V2).
    unfold fileStreams. cbn [map concat fileEntries endIndex].
    rewrite <- !app_assoc. reflexivity.
Qed.

Lemma run_archive (f : file) (files : list file) :
  Forall (fun f => validName (fileName f)) (f :: files) ->
  run (archiveOps (f :: files))
    (mkWriter headerBytes 4 [] None (Some ErrNoValidEntry)) =
  Some (mkWriter (archiveBytes (f :: files)) (endIndex 4 (f :: files))
          (fileEntries 4 (f :: files)) None (Some ErrWriteAfterClose),
        repeat None (3 * length (f :: files) + 1)).
Proof.
  intros V. inversion V as [|? ? V1 V2]; subst.
  unfold archiveOps. cbn [flat_map]. rewrite <- app_assoc.
  replace (3 * length (f :: files) + 1)%nat
    with (3 + (3 * length files + 1))%nat by (cbn [length]; lia).
  fold (archiveOps files).
  exact (run_app _ _ _ _ _ [None; None; None] _
           (addFile_first f headerBytes V1)
           (run_files files f headerBytes 4 [] V2)).
Qed.

(** The archive of a non-empty list of files with acceptable names, written
    to an empty buffer: every call returns nil, the buffer ends up holding
    the header, the streams of the files in order, the compressed table of
    their records and the footer, and the Writer is closed. *)
Theorem writeArchive_spec (f : file) (files : list file) :
  Forall (fun f => validName (fileName f)) (f :: files) ->
  writeArchive ([] : Buffer) (f :: files) =
  Some (Ok (mkWriter (archiveBytes (f :: files)) (endIndex 4 (f :: files))
              (fileEntries 4 (f :: files)) None (Some ErrWriteAfterClose),
            repeat None (3 * length (f :: files) + 1))).
Proof.
  intros V. unfold writeArchive, NewWriter, io_Write, Buffer_Writer.
  cbn [app]. change (uint64 (len headerBytes)) with 4.
  erewrite run_archive; [reflexivity | exact V].
Qed.

End ArchiveWriter.

(** ** Whole archives: reading back *)

Lemma lor_bound32 (a b : Z) :
  0 <= a < 2 ^ 32 -> 0 <= b < 2 ^ 32 -> 0 <= Z.lor a b < 2 ^ 32.
Proof.
  intros Ha Hb. assert (N : 0 <= Z.lor a b) by (apply Z.lor_nonneg; lia).
  split; [exact N|].
  destruct (Z.eq_dec (Z.lor a b) 0) as [E|E]; [rewrite E; lia|].
  apply Z.log2_lt_pow2; [lia|]. rewrite Z.log2_lor by lia.
  apply Z.max_lub_lt.
  - destruct (Z.eq_dec a 0) as [->|]; [cbn; lia|]. apply Z.log2_lt_pow2; lia.
  - destruct (Z.eq_dec b 0) as [->|]; [cbn; lia|]. apply Z.log2_lt_pow2; lia.
Qed.

Lemma adler32_step_range (d : Z) (b : byte) : is_uint 32 (adler32_step d b).
Proof.
  unfold adler32_step, is_uint, adler32_mod.
  set (s1 := (Z.land d 65535 + byte.unsigned b) mod 65521).
  set (s2 := (Z.shiftr d 16 + s1) mod 65521).
  assert (0 <= s1 < 65521) by (apply Z.mod_pos_bound; lia).
  assert (0 <= s2 < 65521) by (apply Z.mod_pos_bound; lia).
  apply lor_bound32; [|lia]. rewrite Z.shiftl_mul_pow2 by lia. lia.
Qed.

Lemma adler32_range (l : list byte) : is_uint 32 (adler32 l).
Proof.
  destruct l as [|y l]; [unfold is_uint; change (adler32 []) with 1; lia|].
  destruct (exists_last (l := y :: l)) as (m & x & E); [discriminate|].
  rewrite E. unfold adler32. rewrite adler32_update_app.
  cbn [adler32_update fold_left]. apply adler32_step_range.
Qed.

Lemma match_nonempty {A B : Type} (l : list A) (x y : B) :
  l <> [] -> match l with [] => x | _ :: _ => y end = y.
Proof. destruct l; [contradiction | reflexivity]. Qed.

Lemma firstn_length_app {A : Type} (a b : list A) :
  firstn (length a) (a ++ b) = a.
Proof.
  rewrite firstn_app, Nat.sub_diag, firstn_all. cbn [firstn].
  apply app_nil_r.
Qed.

Lemma skipn_length_app {A : Type} (a b : list A) :
  skipn (length a) (a ++ b) = b.
Proof.
  rewrite skipn_app, Nat.sub_diag, skipn_all. reflexivity.
Qed.

Lemma adlerReader_pull_0 (ar : adlerReader) : adlerReader_pull ar 0 = ar.
Proof. destruct ar. reflexivity. Qed.

Section EagerReads.

Variable decode : list byte -> option (list byte * nat).

Local Hint Extern 0 Inflater => exact (Eager_Inflater decode)
  : typeclass_instances.

Lemma eager_Read_served (d : eager) (src : list byte) (e : option error)
    (k : nat) (a b : list byte) :
  match d with
  | Fresh => decode src = Some (a ++ b, k) /\ e = Some EOF
  | Decoded t e' => t = a ++ b /\ e' = e /\ k = O
  end ->
  a <> [] ->
  eager_Read decode d src (length a) =
  (a, match b with [] => e | _ => None end, (Decoded b e, k)).
Proof.
  intros H Na. unfold eager_Read.
  assert (E : match d with
              | Fresh =>
                  match decode src with
                  | Some (out, k) => (out, Some EOF, k)
                  | None => ([], Some ErrUnexpectedEOF, length src)
                  end
              | Decoded t e => (t, e, O)
              end = (a ++ b, e, k)).
  { destruct d as [|t e'].
    - destruct H as [-> ->]. reflexivity.
    - destruct H as (-> & -> & ->). reflexivity. }
  rewrite E.
  destruct (a ++ b) as [|x t] eqn:T.
  - apply app_eq_nil in T. destruct T. contradiction.
  - rewrite <- T, firstn_length_app, skipn_length_app.
    destruct b; reflexivity.
Qed.

Lemma stream_Read_served (s : stream) (ar' : adlerReader)
    (a b : list byte) :
  served decode s (a ++ b) ar' ->
  a <> [] ->
  stream_Read s (length a) =
  (a, match b with [] => Some EOF | _ => None end,
   (ar', Decoded b (Some EOF))).
Proof.
  intros [->|(ar & k & -> & D & ->)] Na; unfold stream_Read;
    cbn [fst snd flate_Read Eager_Inflater].
  - rewrite (eager_Read_served _ _ (Some EOF) O a b) by auto.
    now rewrite adlerReader_pull_0.
  - rewrite (eager_Read_served _ _ (Some EOF) k a b) by auto.
    reflexivity.
Qed.

Lemma readEntry_served (last : bool) (s : stream) (ar' : adlerReader)
    (x : Entry) (t : list byte) :
  served decode s (recordLayout x ++ bytes_of_string (Name x) ++ t) ar' ->
  Entry_typed x ->
  0 < Z.of_nat (String.length (Name x)) < 65536 ->
  (t = [] -> last = true) ->
  readEntry last s = Some (Ok (x, (ar', Decoded t (Some EOF)))).
Proof.
  intros S T N L.
  assert (Nn : bytes_of_string (Name x) <> []).
  { intros Q. apply (f_equal (@length byte)) in Q.
    rewrite length_bytes_of_string in Q. cbn in Q. lia. }
  assert (Nr : recordLayout x <> []).
  { intros Q. apply (f_equal (@length byte)) in Q.
    rewrite length_recordLayout in Q. discriminate Q. }
  unfold readEntry.
  pose proof (stream_Read_served s ar' _ _ S Nr) as R1.
  rewrite length_recordLayout in R1. rewrite R1.
  rewrite match_nonempty
    by (intros Q; apply app_eq_nil in Q; destruct Q; contradiction).
  rewrite fill_full by apply length_recordLayout.
  rewrite decodeEntry_layout by exact T. cbv beta iota.
  unfold uint16. rewrite Z.mod_small by lia. rewrite Nat2Z.id.
  pose proof (stream_Read_served (ar', Decoded _ (Some EOF)) ar'
                (bytes_of_string (Name x)) t (or_introl eq_refl) Nn) as R2.
  rewrite length_bytes_of_string in R2. rewrite R2.
  rewrite fill_full by apply length_bytes_of_string.
  assert (E : setName (setName x EmptyString)
                (string_of_bytes (bytes_of_string (Name x))) = x).
  { unfold string_of_bytes, bytes_of_string.
    rewrite string_of_list_byte_of_string. destruct x; reflexivity. }
  rewrite E. destruct t; [rewrite L|]; reflexivity.
Qed.

End EagerReads.

Section ArchiveReader.

Context {flate : Deflater} {path : PathLib}.

Variable decode : list byte -> option (list byte * nat).

Local Hint Extern 0 Inflater => exact (Eager_Inflater decode)
  : typeclass_instances.

Lemma tableChunks_nil (es : list Entry) :
  concat (tableChunks es) = [] -> es = [].
Proof.
  destruct es as [|x es]; [reflexivity|].
  unfold tableChunks. cbn [flat_map app concat]. intros Q.
  apply app_eq_nil in Q. destruct Q as [Q _].
  apply (f_equal (@length byte)) in Q. rewrite length_recordLayout in Q.
  discriminate Q.
Qed.

Lemma readEntries_served (count : Z) (ar' : adlerReader) (es : list Entry) :
  forall (i : Z) (s : stream),
  served decode s (concat (tableChunks es)) ar' ->
  Forall entryOk es ->
  0 <= i -> i + len es = count -> count <= 2 ^ 32 ->
  readEntries (length es) i count s =
  Some (Ok (es, match es with
                | [] => s
                | _ => (ar', Decoded [] (Some EOF))
                end)).
Proof.
  induction es as [|x es IH]; intros i s S F Hi Hc Hn; [reflexivity|].
  inversion F as [|? ? [T N] F']; subst.
  unfold len in *. cbn [length] in *. cbn [readEntries].
  unfold tableChunks in S. cbn [flat_map app concat] in S.
  fold (tableChunks es) in S.
  rewrite (readEntry_served decode _ s ar' x (concat (tableChunks es)));
    [|exact S|exact T|exact N|].
  2:{ intros Q. apply tableChunks_nil in Q. subst es. cbn [length].
      apply Z.eqb_eq. unfold uint32. rewrite Z.mod_small; lia. }
  cbv beta iota.
  rewrite (IH (i + 1) _ (or_introl eq_refl) F') by lia.
  destruct es; reflexivity.
Qed.

Lemma readHeader_ok (body : list byte) :
  readHeader (mkFile (headerBytes ++ body) 0) =
  Ok (mkFile (headerBytes ++ body) 4).
Proof. reflexivity. Qed.

Lemma NewReader_table (streams : list byte) (es : list Entry) :
  codec decode ->
  Forall entryOk es -> es <> [] ->
  len es < 2 ^ 32 ->
  4 + len streams < 2 ^ 63 ->
  NewReader
    (mkFile (headerBytes ++ streams ++ tableStream es ++
             le_split 8 (4 + len streams) ++
             le_split 4 (adler32 (tableStream es)) ++
             le_split 4 (uint32 (len es))) 0) =
  Some (Ok (mkReader es
              (mkFile (headerBytes ++ streams ++ tableStream es ++
                       le_split 8 (4 + len streams) ++
                       le_split 4 (adler32 (tableStream es)) ++
                       le_split 4 (uint32 (len es)))
                 (4 + len streams)))).
Proof.
  intros C F Ne Hn Hs.
  pose proof (len_nonneg streams) as Ps. pose proof (len_nonneg es) as Pe.
  unfold NewReader. rewrite readHeader_ok.
  set (footer := le_split 8 (4 + len streams) ++
                 le_split 4 (adler32 (tableStream es)) ++
                 le_split 4 (uint32 (len es))).
  replace (headerBytes ++ streams ++ tableStream es ++ footer)
    with ((headerBytes ++ streams ++ tableStream es) ++ footer)
    by (rewrite <- !app_assoc; reflexivity).
  unfold footer at 1.
  rewrite readFooter_at_end;
    [|unfold is_uint; lia|apply adler32_range
     |unfold is_uint, uint32; apply Z.mod_pos_bound; lia].
  destruct (Z.ltb_spec (4 + len streams) (2 ^ 63)) as [_|]; [|lia].
  fold footer. cbv beta iota.
  assert (R : File_rest
                (mkFile ((headerBytes ++ streams ++ tableStream es) ++ footer)
                   (4 + len streams)) = tableStream es ++ footer).
  { unfold File_rest. cbn [f_pos f_data].
    replace (Z.to_nat (4 + len streams))
      with (length (headerBytes ++ streams))
      by (rewrite length_app; unfold len; cbn [length headerBytes app
                                                 magicNumber]; lia).
    rewrite <- !app_assoc.
    rewrite (app_assoc headerBytes streams). apply skipn_length_app. }
  rewrite R. unfold uint32. rewrite Z.mod_small by lia.
  unfold len at 1. rewrite Nat2Z.id.
  rewrite (readEntries_served (len es)
             (adlerReader_pull (newAdlerReader (tableStream es ++ footer))
                (length (tableStream es))) es 0);
    [|right; exists (newAdlerReader (tableStream es ++ footer)),
                    (length (tableStream es));
      split; [reflexivity|split; [apply C|reflexivity]]
     |exact F|lia|lia|lia].
  cbv beta iota. destruct es as [|x es']; [contradiction|].
  cbv beta iota. rewrite adlerReader_pull_new. unfold adlerReader_Adler.
  cbn [ar_adler]. rewrite firstn_length_app, Z.eqb_refl. reflexivity.
Qed.

Lemma readUnder_stream (er : entryReader) (n : nat) :
  n <> O ->
  readUnder er n =
  let '(bs, e, (ar, d)) := stream_Read (er_ar er, er_r er) n in
  (bs, e, ar, d, int64 (er_count er - len bs)).
Proof.
  intros N. destruct n; [contradiction|].
  unfold readUnder, stream_Read. cbn [fst snd].
  destruct (flate_Read (er_r er) (ar_r (er_ar er)) (S n)) as [[bs e] [d k]].
  reflexivity.
Qed.

(** One [Read] from a view whose stream will deliver [t], the bytes left
    of the entry. *)
Lemma entryReader_Read_served (er : entryReader) (bufsize : nat)
    (t : list byte) (ar' : adlerReader) :
  er_err er = None ->
  er_count er = len t ->
  served decode (er_ar er, er_r er) t ar' ->
  t <> [] -> (0 < bufsize)%nat -> len t < 2 ^ 63 ->
  exists a b,
    t = a ++ b /\ a <> [] /\
    entryReader_Read er bufsize =
    Some (a, match b with [] => Some EOF | _ => None end,
          mkEntryReader ar' (Decoded b (Some EOF)) (len b) (er_adler er)
            (match b with [] => Some EOF | _ => None end)).
Proof.
  intros E C Sv Nt Nb Ht.
  set (n := Nat.min bufsize (length t)).
  assert (Ln : (0 < n <= length t)%nat).
  { unfold n. destruct t; [contradiction|]. cbn [length]. lia. }
  exists (firstn n t), (skipn n t).
  assert (La : length (firstn n t) = n) by (rewrite length_firstn; lia).
  split; [symmetry; apply firstn_skipn|].
  split; [intros Q; rewrite Q in La; cbn in La; lia|].
  unfold entryReader_Read. rewrite E.
  assert (Cl : clip (er_count er) bufsize = Some n).
  { unfold clip. rewrite C. unfold len, n.
    destruct (Z.ltb_spec (Z.of_nat (length t)) (Z.of_nat bufsize)).
    - destruct (Z.ltb_spec (Z.of_nat (length t)) 0); [lia|].
      rewrite Nat2Z.id. f_equal. lia.
    - f_equal. lia. }
  rewrite Cl. cbv beta iota.
  rewrite readUnder_stream by lia.
  rewrite <- (firstn_skipn n t) in Sv.
  pose proof (stream_Read_served decode _ ar' _ _ Sv) as R.
  rewrite La in R. rewrite R
    by (intros Q; rewrite Q in La; cbn in La; lia).
  rewrite C.
  assert (Lb : len t - len (firstn n t) = len (skipn n t)).
  { unfold len. rewrite length_skipn, La. lia. }
  rewrite Lb, int64_small
    by (unfold len in *; rewrite length_skipn; lia).
  destruct (skipn n t) as [|y r] eqn:K; [reflexivity|].
  unfold verdict, len. cbn [length].
  destruct (Z.eqb_spec (Z.of_nat (S (length r))) 0); [lia|reflexivity].
Qed.

Lemma copyAll_served (bufsize : nat) (ar' : adlerReader) (fuel : nat) :
  forall (er : entryReader) (t : list byte),
  er_err er = None ->
  er_count er = len t ->
  served decode (er_ar er, er_r er) t ar' ->
  t <> [] -> (length t <= fuel)%nat -> (0 < bufsize)%nat ->
  len t < 2 ^ 63 ->
  exists er',
    copyAll fuel bufsize er = Some (t, None, er') /\
    er_ar er' = ar' /\ er_adler er' = er_adler er.
Proof.
  induction fuel as [|fuel IH]; intros er t E C Sv Nt Lf Nb Ht.
  - destruct t; [contradiction | cbn in Lf; lia].
  - destruct (entryReader_Read_served er bufsize t ar' E C Sv Nt Nb Ht)
      as (a & b & -> & Na & R).
    cbn [copyAll]. rewrite R. cbv beta iota.
    destruct b as [|y b'].
    + rewrite app_nil_r. eexists. split; [reflexivity|]. split; reflexivity.
    + assert (L1 : (length (y :: b') <= fuel)%nat).
      { rewrite length_app in Lf. destruct a; [contradiction|].
        cbn [length] in *. lia. }
      assert (L2 : len (y :: b') < 2 ^ 63).
      { rewrite len_app in Ht. pose proof (len_nonneg a). lia. }
      assert (L3 : y :: b' <> []) by discriminate.
      destruct (IH (@mkEntryReader (Eager_Inflater decode) ar'
                      (Decoded (y :: b') (Some EOF))
                      (len (y :: b')) (er_adler er) None) (y :: b')
                  eq_refl eq_refl (or_introl eq_refl) L3 L1 Nb L2)
        as (er' & Cp & A1 & A2).
      rewrite Cp. exists er'. split; [reflexivity|]. split; assumption.
Qed.

Lemma extract_file (fuel bufsize : nat) (br : Reader) (e : Entry)
    (pre post content : list byte) :
  codec decode ->
  f_data (br_r br) = pre ++ fileStream content ++ post ->
  index e = len pre -> len pre < 2 ^ 63 ->
  Size e = len content -> len content < 2 ^ 63 ->
  adler e = adler32 (fileStream content) ->
  (length content < fuel)%nat -> (0 < bufsize)%nat ->
  extract fuel bufsize br e = Some (Ok (content, closeError content)).
Proof.
  intros C D I Hp Sz Hc A Lf Nb.
  pose proof (len_nonneg pre) as Pp. pose proof (len_nonneg content) as Pc.
  unfold extract, EntryReader, File_Seek.
  rewrite I, int64_small by lia.
  destruct (Z.ltb_spec (len pre) 0) as [|_]; [lia|].
  assert (R : File_rest (mkFile (f_data (br_r br)) (len pre)) =
              fileStream content ++ post).
  { unfold File_rest. cbn [f_pos f_data]. rewrite D. unfold len.
    rewrite Nat2Z.id. apply skipn_length_app. }
  rewrite R, Sz, A, int64_small by lia.
  destruct content as [|y content'].
  - destruct fuel as [|fuel']; [cbn in Lf; lia|].
    cbn [copyAll]. unfold entryReader_Read, clip.
    cbn [er_err er_count len length Z.of_nat].
    destruct (Z.ltb_spec 0 (Z.of_nat bufsize)) as [_|]; [|lia].
    reflexivity.
  - set (s := fileStream (y :: content')).
    destruct (copyAll_served bufsize
                (adlerReader_pull (newAdlerReader (s ++ post)) (length s))
                fuel
                (@mkEntryReader (Eager_Inflater decode)
                   (newAdlerReader (s ++ post)) Fresh
                   (len (y :: content')) (adler32 s) None)
                (y :: content') eq_refl eq_refl)
      as (er' & Cp & A1 & A2);
      [right; exists (newAdlerReader (s ++ post)), (length s);
       split; [reflexivity|];
       split; [|reflexivity];
       pose proof (C [y :: content'] post) as Q;
       cbn [concat] in Q; rewrite app_nil_r in Q; exact Q
      |discriminate|lia|exact Nb|exact Hc|].
    change flate_NewReader with Fresh. rewrite Cp.
    unfold entryReader_Close. rewrite A1, A2. cbn [er_adler].
    rewrite adlerReader_pull_new. unfold adlerReader_Adler. cbn [ar_adler].
    rewrite firstn_length_app, Z.eqb_refl. reflexivity.
Qed.

Lemma fileStreams_cons (f : file) (files : list file) :
  fileStreams (f :: files) = fileStream (fileContent f) ++ fileStreams files.
Proof. reflexivity. Qed.

Lemma extract_files (fuel bufsize : nat) (br : Reader) (post : list byte)
    (files : list file) :
  forall (pre : list byte),
  codec decode ->
  f_data (br_r br) = pre ++ fileStreams files ++ post ->
  len pre + len (fileStreams files) < 2 ^ 63 ->
  Forall (fun f => (length (fileContent f) < fuel)%nat /\
                   len (fileContent f) < 2 ^ 63) files ->
  (0 < bufsize)%nat ->
  map (fun e => (Name e, Perm e, Size e, extract fuel bufsize br e))
    (fileEntries (len pre) files) =
  fileListing files.
Proof.
  induction files as [|f files IH]; intros pre C D Hl F Nb; [reflexivity|].
  inversion F as [|? ? [Lf Hc] F']; subst.
  rewrite fileStreams_cons in D, Hl. rewrite len_app in Hl.
  pose proof (len_nonneg pre). pose proof (len_nonneg (fileStreams files)).
  pose proof (len_nonneg (fileStream (fileContent f))).
  pose proof (len_nonneg (fileContent f)).
  cbn [fileEntries map fileListing]. cbn [Name Perm Size].
  rewrite (uint64_small (len (fileContent f))) by lia.
  rewrite (extract_file fuel bufsize br _ pre (fileStreams files ++ post)
             (fileContent f) C);
    [|rewrite D, <- app_assoc; reflexivity|reflexivity|lia
     |reflexivity|exact Hc|reflexivity|exact Lf
     |exact Nb].
  f_equal.
  rewrite (uint64_small (len (fileStream (fileContent f)))) by lia.
  rewrite uint64_small by lia. rewrite <- len_app.
  apply IH; [exact C|rewrite D, <- !app_assoc; reflexivity
            |rewrite len_app; lia|exact F'|exact Nb].
Qed.

Lemma endIndex_small (files : list file) :
  forall (idx : Z),
  0 <= idx -> idx + len (fileStreams files) < 2 ^ 64 ->
  endIndex idx files = idx + len (fileStreams files).
Proof.
  induction files as [|f files IH]; intros idx Hi Hl.
  - cbn. lia.
  - rewrite fileStreams_cons, len_app in *.
    pose proof (len_nonneg (fileStreams files)).
    pose proof (len_nonneg (fileStream (fileContent f))).
    cbn [endIndex].
    rewrite (uint64_small (len (fileStream (fileContent f)))) by lia.
    rewrite uint64_small by lia. rewrite IH by lia. lia.
Qed.

Lemma fileEntries_ok (files : list file) :
  forall (idx : Z),
  is_uint 64 idx -> Forall archivable files ->
  Forall entryOk (fileEntries idx files).
Proof.
  induction files as [|f files IH]; intros idx Hi F; [constructor|].
  inversion F as [|? ? (V & N & P) F']; subst.
  cbn [fileEntries]. constructor.
  - split; [|exact N]. constructor; cbn [Size Perm sizeCompressed index adler].
    + apply Z.mod_pos_bound. lia.
    + exact P.
    + apply Z.mod_pos_bound. lia.
    + exact Hi.
    + apply adler32_range.
  - apply IH; [apply Z.mod_pos_bound; lia|exact F'].
Qed.

Lemma length_fileEntries (files : list file) :
  forall (idx : Z), length (fileEntries idx files) = length files.
Proof.
  induction files as [|f files IH]; intros idx; [reflexivity|].
  cbn [fileEntries length]. now rewrite IH.
Qed.

Lemma listing_archiveBytes (fuel bufsize : nat) (f : file)
    (files : list file) :
  codec decode ->
  Forall archivable (f :: files) ->
  Forall (fun f => (length (fileContent f) < fuel)%nat /\
                   len (fileContent f) < 2 ^ 63) (f :: files) ->
  len (f :: files) < 2 ^ 32 ->
  4 + len (fileStreams (f :: files)) < 2 ^ 63 ->
  (0 < bufsize)%nat ->
  listing fuel bufsize (archiveBytes (f :: files)) =
  Some (Ok (fileListing (f :: files))).
Proof.
  intros C A F Hn Hs Nb.
  pose proof (len_nonneg (fileStreams (f :: files))) as Ps.
  assert (Le : len (fileEntries 4 (f :: files)) = len (f :: files))
    by (unfold len; now rewrite length_fileEntries).
  unfold listing, archiveBytes.
  rewrite endIndex_small by lia.
  rewrite (NewReader_table (fileStreams (f :: files))
             (fileEntries 4 (f :: files)) C);
    [|apply fileEntries_ok; [unfold is_uint; lia|exact A]
     |discriminate|lia|exact Hs].
  cbv beta iota. cbn [Entries]. f_equal. f_equal.
  apply (extract_files fuel bufsize _
           (tableStream (fileEntries 4 (f :: files)) ++
            le_split 8 (4 + len (fileStreams (f :: files))) ++
            le_split 4 (adler32 (tableStream (fileEntries 4 (f :: files)))) ++
            le_split 4 (uint32 (len (fileEntries 4 (f :: files)))))
           (f :: files) headerBytes C);
    [reflexivity|change (len headerBytes) with 4; lia|exact F|exact Nb].
Qed.

Lemma tableChunks_len (es : list Entry) :
  32 * len es <= len (concat (tableChunks es)).
Proof.
  induction es as [|x es IH]; [unfold len; cbn; lia|].
  unfold tableChunks in *. cbn [flat_map app concat].
  fold (tableChunks es) in *. rewrite !len_app.
  pose proof (len_nonneg (bytes_of_string (Name x))).
  unfold len in *. rewrite length_recordLayout. cbn [length].
  unfold entrySize. lia.
Qed.

(** An archive written by the Writer and then opened and extracted, when
    every content and the table are shorter than the 32 KiB window of the
    decompressor: the listing gives every file back under its name, with
    its permission bits, size and content.  The view of a file that is not
    empty closes without error; that of an empty file closes with what
    [closeError] says. *)
Theorem archive_roundtrip (fuel bufsize : nat) (f : file)
    (files : list file) (bw : Writer Buffer) (errs : list (option error)) :
  codec decode ->
  Forall archivable (f :: files) ->
  Forall (fun f => len (fileContent f) < 32768 /\
                   (length (fileContent f) < fuel)%nat) (f :: files) ->
  len (concat (tableChunks (fileEntries 4 (f :: files)))) < 32768 ->
  4 + len (fileStreams (f :: files)) < 2 ^ 63 ->
  (0 < bufsize)%nat ->
  writeArchive ([] : Buffer) (f :: files) = Some (Ok (bw, errs)) ->
  listing fuel bufsize (bw_w bw) =
  Some (Ok (fileListing (f :: files))).
Proof.
  intros C A F Ht Hs Nb W.
  assert (V : Forall (fun f => validName (fileName f)) (f :: files))
    by (eapply Forall_impl; [|exact A]; intros x Hx; apply Hx).
  unfold writeArchive, NewWriter, io_Write, Buffer_Writer in W.
  cbn [app] in W. change (uint64 (len headerBytes)) with 4 in W.
  erewrite run_archive in W by exact V.
  assert (E : bw = mkWriter (archiveBytes (f :: files))
                     (endIndex 4 (f :: files))
                     (fileEntries 4 (f :: files)) None
                     (Some ErrWriteAfterClose)) by congruence.
  subst bw. cbn [bw_w].
  pose proof (tableChunks_len (fileEntries 4 (f :: files))) as Lt.
  assert (Le : len (fileEntries 4 (f :: files)) = len (f :: files))
    by (unfold len; now rewrite length_fileEntries).
  apply listing_archiveBytes; try assumption; [|lia].
  eapply Forall_impl; [|exact F]. cbv beta. intros x [H1 H2]. split; [exact H2|lia].
Qed.

End ArchiveReader.


(** A container whose footer counts no entry: [NewReader] never reads the
    table, so that it returns a Reader without entries when the checksum of
    the footer is 1, the digest of no bytes, and ErrInvalidChecksum
    otherwise, whatever lies between header and footer. *)
Theorem NewReader_no_entries {flate : Inflater} (body : list byte)
    (t a : Z) :
  is_uint 64 t -> is_uint 32 a -> t < 2 ^ 63 ->
  NewReader
    (mkFile (headerBytes ++ body ++ le_split 8 t ++ le_split 4 a ++
             le_split 4 0) 0) =
  if a =? 1
  then Some (Ok (mkReader []
                   (mkFile (headerBytes ++ body ++ le_split 8 t ++
                            le_split 4 a ++ le_split 4 0) t)))
  else Some (Err ErrInvalidChecksum).
Proof.
  intros Ht Ha Hs. unfold NewReader. rewrite readHeader_ok.
  replace (headerBytes ++ body ++ le_split 8 t ++ le_split 4 a ++
           le_split 4 0)
    with ((headerBytes ++ body) ++ le_split 8 t ++ le_split 4 a ++
          le_split 4 0)
    by (rewrite <- !app_assoc; reflexivity).
  rewrite readFooter_at_end; [|exact Ht|exact Ha|unfold is_uint; lia].
  destruct (Z.ltb_spec t (2 ^ 63)) as [_|]; [|lia].
  cbv beta iota. cbn [Z.to_nat readEntries].
  unfold adlerReader_Adler, newAdlerReader. cbn [ar_adler].
  rewrite (Z.eqb_sym adler32_New a). change adler32_New with 1.
  destruct (a =? 1); reflexivity.
Qed.

(** ** Entries written in several pieces *)

Section Pieces.

Context {flate : Deflater} {path : PathLib}.

Lemma dataWriter_Write_uncomp (dw : dataWriter) (w : Buffer)
    (p : list byte) :
  uncompCounter (fst (fst (dataWriter_Write dw w p))) =
  uint64 (uncompCounter dw + len p).
Proof.
  unfold dataWriter_Write.
  destruct (flate_Write (deflate dw) p) as [c out].
  destruct out as [|b out]; reflexivity.
Qed.

Lemma run_writes (idx : Z) (es : list Entry) (chunks : list (list byte)) :
  forall (dw : dataWriter) (w : Buffer) (cur : list byte) (u : Z),
  compCounter dw = uint64 (len cur) ->
  dw_adler dw = adler32 cur ->
  uncompCounter dw = uint64 u ->
  exists dw' X,
    run (map OpWrite chunks) (mkWriter w idx es (Some dw) None) =
      Some (mkWriter (w ++ X) idx es (Some dw') None,
            repeat None (length chunks)) /\
    compCounter dw' = uint64 (len (cur ++ X)) /\
    dw_adler dw' = adler32 (cur ++ X) /\
    uncompCounter dw' = uint64 (u + len (concat chunks)) /\
    X ++ flate_Close (deflate dw') = deflateChunks (deflate dw) chunks.
Proof.
  induction chunks as [|p ps IH]; intros dw w cur u C A U.
  - exists dw, []. cbn [map run length repeat concat deflateChunks].
    rewrite !app_nil_r, Z.add_0_r. auto.
  - destruct (dataWriter_Write_buffer dw w p cur C A)
      as (dw1 & E1 & C1 & A1 & D1).
    pose proof (dataWriter_Write_uncomp dw w p) as U1.
    rewrite E1 in U1. cbn [fst] in U1. rewrite U, uint64_add_l in U1.
    destruct (IH dw1 (w ++ snd (flate_Write (deflate dw) p)) _ _ C1 A1 U1)
      as (dw' & X & R & C' & A' & U' & D').
    exists dw', (snd (flate_Write (deflate dw) p) ++ X).
    cbn [map run step]. unfold Write. cbn [bw_err bw_curr bw_w bw_index
                                            bw_entries].
    rewrite E1. cbv beta iota. rewrite R. cbv beta iota.
    rewrite <- !app_assoc in *.
    split; [reflexivity|]. split; [exact C'|]. split; [exact A'|].
    split.
    + rewrite U'. cbn [concat]. rewrite len_app. f_equal. lia.
    + rewrite D', D1. cbn [deflateChunks].
      destruct (flate_Write (deflate dw) p). reflexivity.
Qed.

(** An entry whose content is handed over in any number of [Write] calls:
    every call returns nil, and when the entry is ended its record holds
    the total number of bytes written, the length and the Adler-32 of the
    compressed stream, which is what went into the buffer, and the Writer
    has moved on by the length of the stream. *)
Theorem Write_pieces (w : Buffer) (idx : Z) (done : list Entry) (e0 : Entry)
    (chunks : list (list byte)) :
  exists bw1,
    run (map OpWrite chunks)
      (mkWriter w idx (done ++ [e0]) (Some newDataWriter) None) =
      Some (bw1, repeat None (length chunks)) /\
    finalizeEntry bw1 =
      Some (mkWriter (w ++ deflateChunks flate_NewWriter chunks)
              (uint64 (idx +
                       uint64 (len (deflateChunks flate_NewWriter chunks))))
              (done ++
               [mkEntry (Name e0) (uint64 (len (concat chunks))) (Perm e0)
                  (uint64 (len (deflateChunks flate_NewWriter chunks)))
                  (index e0)
                  (adler32 (deflateChunks flate_NewWriter chunks))])
              None None,
            None).
Proof.
  destruct (run_writes idx (done ++ [e0]) chunks newDataWriter w [] 0
              eq_refl eq_refl eq_refl)
    as (dw' & X & R & C & A & U & D).
  eexists. split; [exact R|].
  destruct (dataWriter_Close_buffer dw' (w ++ X) ([] ++ X) C A)
    as (dw'' & E2 & C2 & A2).
  assert (U2 : uncompCounter dw'' = uncompCounter dw').
  { unfold dataWriter_Close in E2.
    destruct (emit_buffer dw' (w ++ X) (flate_Close (deflate dw')) ([] ++ X)
                C A) as (d3 & E3 & _ & _ & _ & U3).
    rewrite E3 in E2. congruence. }
  unfold finalizeEntry. cbn [bw_curr bw_w bw_entries bw_index bw_err].
  rewrite E2, set_last_app.
  unfold CompressedCount, UncompressedCount, dataWriter_Adler.
  rewrite C2, A2, U2, U. cbn [app] in *.
  change (deflate newDataWriter) with flate_NewWriter in D.
  rewrite D, <- app_assoc, D. reflexivity.
Qed.

End Pieces.

(** ** The command line tool: names *)

Lemma stripParents_eq (name : string) :
  stripParents name =
  if prefix "../" name then
    match name with
    | String _ (String _ (String _ rest)) => stripParents rest
    | _ => name
    end
  else name.
Proof. destruct name; reflexivity. Qed.

Lemma prefix_parent (name : string) :
  prefix "../" name = true ->
  exists rest, name = String "." (String "." (String "/" rest)).
Proof.
  destruct name as [|a [|b [|c rest]]]; cbn [prefix];
    repeat match goal with
      | |- context [ascii_dec ?x ?y] => destruct (ascii_dec x y)
      end; try discriminate.
  intros _. subst. eauto.
Qed.

Lemma stripParents_bounded (n : nat) :
  forall (name : string),
  (String.length name <= n)%nat ->
  prefix "../" (stripParents name) = false /\
  exists k, name = String.append (parents k) (stripParents name).
Proof.
  induction n as [|n IH]; intros name L.
  - destruct name; [|cbn in L; lia]. split; [reflexivity|].
    exists O. reflexivity.
  - rewrite stripParents_eq. destruct (prefix "../" name) eqn:P.
    + destruct (prefix_parent name P) as [rest ->].
      destruct (IH rest) as (Q & k & E); [cbn in L; lia|].
      split; [exact Q|]. exists (S k). cbn [parents String.append].
      now rewrite <- E.
    + split; [exact P|]. exists O. reflexivity.
Qed.

(** The name that the tool records for a relative path is the path
    without all of its leading parent directories: it is what is left
    after some number of [../] and does not begin with [../] itself, so
    that taking them off again changes nothing. *)
Theorem stripParents_spec (name : string) :
  prefix "../" (stripParents name) = false /\
  (exists k, name = String.append (parents k) (stripParents name)) /\
  stripParents (stripParents name) = stripParents name.
Proof.
  destruct (stripParents_bounded (String.length name) name (le_n _))
    as [P E].
  split; [exact P|]. split; [exact E|].
  rewrite (stripParents_eq (stripParents name)), P. reflexivity.
Qed.

(** ** The stored-block codec *)

Lemma inflateStored_block (fuel : nat) (b : byte) (tl : list byte) :
  inflateStored (S fuel) (storedBlock b ++ tl) =
  match inflateStored fuel tl with
  | Some (d, k) => Some (b :: d, (6 + k)%nat)
  | None => None
  end.
Proof.
  transitivity
    (match inflateStored fuel tl with
     | Some (d, k) => Some ([b] ++ d, (5 + 1 + k)%nat)
     | None => None
     end); [reflexivity|].
  destruct (inflateStored fuel tl) as [[d k]|]; reflexivity.
Qed.

Lemma inflateStored_final (fuel : nat) (rest : list byte) :
  inflateStored (S fuel) (storedFinal ++ rest) = Some ([], 5%nat).
Proof. reflexivity. Qed.

Lemma inflateStored_blocks (d : list byte) :
  forall (fuel : nat) (rest : list byte),
  (length d < fuel)%nat ->
  inflateStored fuel (flat_map storedBlock d ++ storedFinal ++ rest) =
  Some (d, (6 * length d + 5)%nat).
Proof.
  induction d as [|b d IH]; intros fuel rest L.
  - destruct fuel; [cbn in L; lia|]. apply inflateStored_final.
  - destruct fuel as [|fuel]; [cbn in L; lia|].
    cbn [flat_map]. rewrite <- app_assoc, inflateStored_block.
    rewrite IH by (cbn [length] in L; lia).
    f_equal. f_equal. cbn [length]. lia.
Qed.

Lemma stored_deflateChunks (chunks : list (list byte)) :
  deflateChunks (flate := Stored_Deflater) tt chunks =
  flat_map storedBlock (concat chunks) ++ storedFinal.
Proof.
  induction chunks as [|p ps IH]; [reflexivity|].
  cbn [deflateChunks flate_Write Stored_Deflater concat].
  rewrite IH, flat_map_app, app_assoc. reflexivity.
Qed.

Lemma length_storedBlocks (d : list byte) :
  length (flat_map storedBlock d) = (6 * length d)%nat.
Proof.
  induction d as [|b d IH]; [reflexivity|].
  cbn [flat_map]. rewrite length_app, IH. cbn [length storedBlock]. lia.
Qed.

(** The decoder of stored blocks undoes the compressor of stored blocks. *)
Lemma stored_codec : codec (flate := Stored_Deflater) inflate.
Proof.
  intros chunks rest. change (@flate_NewWriter Stored_Deflater) with tt.
  rewrite stored_deflateChunks. unfold inflate.
  rewrite <- app_assoc, inflateStored_blocks.
  - rewrite length_app, length_storedBlocks. reflexivity.
  - rewrite !length_app, length_storedBlocks. lia.
Qed.

(** ** The further properties at concrete inputs *)

Lemma footer_roundtrip_witness :
  readFooter
    (mkFile (headerBytes ++ le_split 8 4 ++ le_split 4 1 ++ le_split 4 0) 0) =
  Some (Ok (4, 1, 0,
            mkFile (headerBytes ++ le_split 8 4 ++ le_split 4 1 ++
                    le_split 4 0) 4)).
Proof.
  assert (H1 : is_uint 64 4) by (unfold is_uint; lia).
  assert (H2 : is_uint 32 1) by (unfold is_uint; lia).
  assert (H3 : is_uint 32 0) by (unfold is_uint; lia).
  assert (H4 : footerBytes 4 1 0 =
               Some (le_split 8 4 ++ le_split 4 1 ++ le_split 4 0))
    by reflexivity.
  exact (proj2 (footer_roundtrip headerBytes _ 0 4 1 0 H1 H2 H3 H4)).
Defined.

Lemma empty_entry_checksum_witness :
  exists er0 br0 rs er,
    EntryReader scenarioReader (mkEntry "dir/b.txt" 0 493 5 39 50790912) =
      Ok (er0, br0) /\
    readSeq [64%nat; 64%nat] er0 = Some (rs, er) /\
    Forall (fun r => fst r = []) rs /\
    entryReader_Close er = Some ErrInvalidChecksum.
Proof.
  set (e := mkEntry "dir/b.txt" 0 493 5 39 50790912).
  set (er0 := mkEntryReader (newAdlerReader (skipn 39 scenarioArchive))
                flate_NewReader 0 50790912 None).
  assert (H1 : EntryReader scenarioReader e =
               Ok (er0, mkReader scenarioEntries (mkFile scenarioArchive 39)))
    by reflexivity.
  set (p := match readSeq [64%nat; 64%nat] er0 with
            | Some p => p
            | None => ([], er0)
            end).
  assert (H2 : readSeq [64%nat; 64%nat] er0 = Some (fst p, snd p))
    by reflexivity.
  destruct (empty_entry_checksum _ _ e _ _ _ _ eq_refl H1 H2)
    as (F & _ & C).
  exists er0, (mkReader scenarioEntries (mkFile scenarioArchive 39)),
    (fst p), (snd p).
  split; [exact H1|]. split; [exact H2|]. split; [exact F|].
  apply C. discriminate.
Defined.

Lemma writeArchive_spec_witness :
  writeArchive (W := Buffer) [] scenarioFiles =
  Some (Ok (mkWriter (archiveBytes scenarioFiles) (endIndex 4 scenarioFiles)
              (fileEntries 4 scenarioFiles) None (Some ErrWriteAfterClose),
            repeat None 7)).
Proof.
  apply (writeArchive_spec ("a.txt"%string, 420, bytes_of_string "hello")
           [("dir/b.txt"%string, 493, [])]).
  repeat constructor.
Defined.

Lemma archive_roundtrip_witness :
  listing 64 4 scenarioArchive = Some (Ok (fileListing scenarioFiles)).
Proof.
  assert (A : Forall archivable scenarioFiles).
  { repeat constructor; unfold is_uint; cbn; lia. }
  assert (F : Forall (fun f => len (fileContent f) < 32768 /\
                               (length (fileContent f) < 64)%nat)
                scenarioFiles).
  { repeat constructor; unfold len; cbn; lia. }
  assert (Hn : len (concat (tableChunks (fileEntries 4 scenarioFiles))) <
               32768) by (vm_compute; reflexivity).
  assert (Hs : 4 + len (fileStreams scenarioFiles) < 2 ^ 63)
    by (vm_compute; reflexivity).
  assert (W : writeArchive (W := Buffer) [] scenarioFiles =
              Some (Ok (mkWriter scenarioArchive 44 scenarioEntries None
                          (Some ErrWriteAfterClose), repeat None 7)))
    by (vm_compute; reflexivity).
  exact (archive_roundtrip inflate 64 4 _ _ _ _ stored_codec A F Hn Hs
           ltac:(lia) W).
Defined.


Lemma NewReader_no_entries_witness :
  NewReader
    (mkFile (headerBytes ++ [] ++ le_split 8 4 ++ le_split 4 1 ++
             le_split 4 0) 0) =
  Some (Ok (mkReader []
              (mkFile (headerBytes ++ [] ++ le_split 8 4 ++ le_split 4 1 ++
                       le_split 4 0) 4))).
Proof.
  assert (H1 : is_uint 64 4) by (unfold is_uint; lia).
  assert (H2 : is_uint 32 1) by (unfold is_uint; lia).
  exact (NewReader_no_entries [] 4 1 H1 H2 ltac:(lia)).
Defined.
